(** * IniFile: shadow copy, backup recovery and publishing of an INI store

    A shallow embedding of [src/common/inifile.cpp].  The class [IniFile]
    keeps a private working copy of an INI file in the temporary directory
    of the operating system, hands out [QSettings] handles on that copy and
    publishes the copy to the original file or to its backup ([*.ini~]).

    The file system, the key-value engine ([QSettings]), [QFile],
    [QCryptographicHash] and [QByteArray::toBase64] are Qt; they are modelled
    here as far as the class uses them. *)

From Stdlib Require Import ZArith List Ascii String Lia.
From Stdlib Require Import DecimalString DecimalPos DecimalZ.
From stdpp Require Import base option gmap strings list fin_maps.

Local Open Scope Z_scope.

(* ===================================================================== *)
(** ** SHA-256 (FIPS 180-4), as computed by [QCryptographicHash::hash]     *)
(* ===================================================================== *)

Module Sha256.

(** 32-bit words are [Z] reduced modulo [2^32]. *)
Definition w32 (x : Z) : Z := x mod 4294967296.

Definition add32 (x y : Z) : Z := w32 (x + y).

Definition rotr (n x : Z) : Z :=
  Z.lor (Z.shiftr x n) (w32 (Z.shiftl x (32 - n))).

Definition not32 (x : Z) : Z := Z.lxor x 4294967295.

Definition Ch (x y z : Z) : Z := Z.lxor (Z.land x y) (Z.land (not32 x) z).

Definition Maj (x y z : Z) : Z :=
  Z.lxor (Z.lxor (Z.land x y) (Z.land x z)) (Z.land y z).

Definition Sigma0 (x : Z) : Z :=
  Z.lxor (Z.lxor (rotr 2 x) (rotr 13 x)) (rotr 22 x).

Definition Sigma1 (x : Z) : Z :=
  Z.lxor (Z.lxor (rotr 6 x) (rotr 11 x)) (rotr 25 x).

Definition sigma0 (x : Z) : Z :=
  Z.lxor (Z.lxor (rotr 7 x) (rotr 18 x)) (Z.shiftr x 3).

Definition sigma1 (x : Z) : Z :=
  Z.lxor (Z.lxor (rotr 17 x) (rotr 19 x)) (Z.shiftr x 10).

(** The constants are defined as FIPS 180-4 defines them, from the first
    primes: the first 32 bits of the fractional part of the square root
    (initial hash value) and of the cube root (round constants). *)
Definition is_prime (n : Z) : bool :=
  forallb (fun d : nat => negb (n mod (Z.of_nat d + 2) =? 0))
          (seq 0 (Z.to_nat (n - 2))).

Definition primes (count : nat) : list Z :=
  firstn count
    (filter is_prime (map (fun k : nat => Z.of_nat k + 2) (seq 0 310))).

(** The integer cube root, one bit at a time from bit [i - 1] down. *)
Fixpoint cbrt_bits (i : nat) (n r : Z) : Z :=
  match i with
  | O => r
  | S i' =>
      let c := r + Z.shiftl 1 (Z.of_nat i') in
      cbrt_bits i' n (if c * c * c <=? n then c else r)
  end.

Definition frac_sqrt (p : Z) : Z := w32 (Z.sqrt (Z.shiftl p 64)).

Definition frac_cbrt (p : Z) : Z := w32 (cbrt_bits 40 (Z.shiftl p 96) 0).

Definition K : list Z := Eval vm_compute in map frac_cbrt (primes 64).

Definition H0 : list Z := Eval vm_compute in map frac_sqrt (primes 8).

(** Big-endian bytes of a word of [n] bytes. *)
Fixpoint be_bytes (n : nat) (x : Z) : list Z :=
  match n with
  | O => []
  | S n' => (Z.shiftr x (8 * Z.of_nat n')) mod 256 :: be_bytes n' x
  end.

(** The message followed by [0x80], zeros up to 56 modulo 64, and the
    length in bits on 8 bytes. *)
Definition pad (msg : list Z) : list Z :=
  let len := Z.of_nat (length msg) in
  let zeros := Z.to_nat ((55 - len) mod 64) in
  msg ++ 128 :: repeat 0 zeros ++ be_bytes 8 (8 * len).

Fixpoint words_of_bytes (fuel : nat) (bs : list Z) : list Z :=
  match fuel, bs with
  | S fuel', b0 :: b1 :: b2 :: b3 :: rest =>
      (b0 * 16777216 + b1 * 65536 + b2 * 256 + b3)
        :: words_of_bytes fuel' rest
  | _, _ => []
  end.

(** The message schedule: 16 words of the block, then 48 derived words. *)
Fixpoint schedule (n : nat) (w : list Z) : list Z :=
  match n with
  | O => w
  | S n' =>
      let t := length w in
      let at_ (k : nat) := nth (t - k) w 0 in
      schedule n'
        (w ++ [add32 (add32 (sigma1 (at_ 2%nat)) (at_ 7%nat))
                     (add32 (sigma0 (at_ 15%nat)) (at_ 16%nat))])
  end.

Definition round (st : list Z) (kw : Z * Z) : list Z :=
  match st with
  | [a; b; c; d; e; f; g; h] =>
      let t1 := add32 (add32 (add32 h (Sigma1 e)) (Ch e f g))
                      (add32 (fst kw) (snd kw)) in
      let t2 := add32 (Sigma0 a) (Maj a b c) in
      [add32 t1 t2; a; b; c; add32 d t1; e; f; g]
  | _ => st
  end.

Definition compress (h : list Z) (block : list Z) : list Z :=
  let w := schedule 48 (words_of_bytes 16 block) in
  let st := fold_left round (combine K w) h in
  map (fun p : Z * Z => add32 (fst p) (snd p)) (combine h st).

Fixpoint blocks (fuel : nat) (h : list Z) (bs : list Z) : list Z :=
  match fuel, bs with
  | S fuel', _ :: _ => blocks fuel' (compress h (firstn 64 bs)) (skipn 64 bs)
  | _, _ => h
  end.

(** The digest of a byte string: 32 bytes. *)
Definition hash (msg : list Z) : list Z :=
  let p := pad msg in
  flat_map (be_bytes 4) (blocks (length p) H0 p).

End Sha256.

(* ===================================================================== *)
(** ** [QByteArray::toBase64(Base64UrlEncoding | OmitTrailingEquals)]      *)
(* ===================================================================== *)

Module Base64Url.

Definition alphabet : string :=
  "ABCDEFGHIJKLMNOPQRSTUVWXYZabcdefghijklmnopqrstuvwxyz0123456789-_".

Definition digit (i : Z) : ascii :=
  match String.get (Z.to_nat i) alphabet with
  | Some c => c
  | None => "A"%char
  end.

(** Three bytes give four characters; a rest of one byte gives two and a
    rest of two bytes gives three (the [=] padding is omitted). *)
Fixpoint encode (fuel : nat) (bs : list Z) : string :=
  match fuel, bs with
  | S fuel', b0 :: b1 :: b2 :: rest =>
      let n := b0 * 65536 + b1 * 256 + b2 in
      String (digit (Z.shiftr n 18))
        (String (digit (Z.land (Z.shiftr n 12) 63))
           (String (digit (Z.land (Z.shiftr n 6) 63))
              (String (digit (Z.land n 63)) (encode fuel' rest))))
  | S _, [b0; b1] =>
      let n := b0 * 65536 + b1 * 256 in
      String (digit (Z.shiftr n 18))
        (String (digit (Z.land (Z.shiftr n 12) 63))
           (String (digit (Z.land (Z.shiftr n 6) 63)) EmptyString))
  | S _, [b0] =>
      let n := b0 * 65536 in
      String (digit (Z.shiftr n 18))
        (String (digit (Z.land (Z.shiftr n 12) 63)) EmptyString)
  | _, _ => EmptyString
  end.

Definition toBase64 (bs : list Z) : string := encode (S (length bs)) bs.

End Base64Url.

(** [QString::toLocal8Bit]: the path's bytes (paths are 8-bit strings). *)
Definition toLocal8Bit (s : string) : list Z :=
  map (fun c : ascii => Z.of_nat (nat_of_ascii c)) (list_ascii_of_string s).

(** The file name of the working copy: lines 50-52 of the constructor. *)
Definition tmpFilename (iniFilepath : string) : string :=
  Base64Url.toBase64 (Sha256.hash (toLocal8Bit iniFilepath)).

(* ===================================================================== *)
(** ** Decimal integers: [QString::number(int)] and [QVariant::toInt]      *)
(* ===================================================================== *)

Definition INT_MIN : Z := -2147483648.
Definition INT_MAX : Z := 2147483647.
Definition LLONG_MIN : Z := -9223372036854775808.
Definition LLONG_MAX : Z := 9223372036854775807.

Definition is_int (n : Z) : Prop := INT_MIN <= n <= INT_MAX.

(** The conversion of a [qlonglong] to [int]: the low 32 bits, signed. *)
Definition to_int32 (n : Z) : Z :=
  (n + 2147483648) mod 4294967296 - 2147483648.

(** [QString::number(int)]: locale-independent decimal digits, with a
    leading minus sign for negative numbers. *)
Definition QString_number (n : Z) : string :=
  NilZero.string_of_int (Z.to_int n).

Definition is_space (c : ascii) : bool :=
  let n := nat_of_ascii c in
  (Nat.eqb n 32 || (Nat.leb 9 n && Nat.leb n 13))%bool.

Fixpoint ltrim (s : string) : string :=
  match s with
  | String c s' => if is_space c then ltrim s' else s
  | EmptyString => EmptyString
  end.

Fixpoint rtrim (s : string) : string :=
  match s with
  | String c s' =>
      match rtrim s' with
      | EmptyString => if is_space c then EmptyString else String c EmptyString
      | r => String c r
      end
  | EmptyString => EmptyString
  end.

(** [QString::toLongLong(&ok)] in the C locale: surrounding white space is
    skipped, one sign is accepted, the digits are decimal and the value has
    to fit a [qlonglong].  [None] stands for [ok == false]. *)
Definition QString_toLongLong (s : string) : option Z :=
  let t := rtrim (ltrim s) in
  let d :=
    match t with
    | String "+" t' => option_map Decimal.Pos (NilZero.uint_of_string t')
    | _ => NilZero.int_of_string t
    end in
  match d with
  | Some d =>
      let n := Z.of_int d in
      if (LLONG_MIN <=? n) && (n <=? LLONG_MAX) then Some n else None
  | None => None
  end.

(** [QVariant::toInt(&ok)] of the value read under a key.  An invalid
    variant (the key is missing) does not convert; a string converts when
    it reads as a [qlonglong], which is then cut to an [int] (an overflow of
    [int] is not reflected in [ok]). *)
Definition QVariant_toInt (v : option string) : option Z :=
  match v with
  | Some s => option_map to_int32 (QString_toLongLong s)
  | None => None
  end.

(* ===================================================================== *)
(** ** The file system and the key-value engine                           *)
(* ===================================================================== *)

(** What a file holds, as the INI engine sees it: the entries of a file it
    can parse, or the bytes of one it cannot. *)
Inductive Content : Type :=
  | Ini (entries : gmap string string)
  | Malformed (raw : string).

#[global] Instance Content_eq_dec : EqDecision Content.
Proof. solve_decision. Defined.

(** The environment of the class: the regular files, the paths that the
    operating system refuses to delete, to write or to create as a
    directory, and [QDir::temp()]. *)
Record World : Type := mkWorld {
  files : gmap string Content;
  undeletable : gset string;
  unwritable : gset string;
  mkpath_fails : gset string;
  tempPath : string
}.

Definition set_files (f : gmap string Content) (w : World) : World :=
  {| files := f; undeletable := undeletable w; unwritable := unwritable w;
     mkpath_fails := mkpath_fails w; tempPath := tempPath w |}.

(** [QSettings::Status]. *)
Inductive Status : Type := NoError | AccessError | FormatError.

#[global] Instance Status_eq_dec : EqDecision Status.
Proof. solve_decision. Defined.

(** A [QSettings] object: the file it is bound to, the writes that are not
    flushed yet, and the first error it met. *)
Record QSettings : Type := mkQSettings {
  qs_fileName : string;
  qs_pending : gmap string string;
  qs_status : Status
}.

(** [QSettingsPrivate::setStatus]: the first error is kept. *)
Definition setStatus (old new : Status) : Status :=
  match old with
  | NoError => new
  | _ => old
  end.

(** The entries the engine reads from a file, and whether it could parse
    the file.  A file that does not exist reads as an empty one. *)
Definition readIniFile (c : option Content) : gmap string string * bool :=
  match c with
  | None => (∅, true)
  | Some (Ini kv) => (kv, true)
  | Some (Malformed _) => (∅, false)
  end.

Definition format_status (ok : bool) : Status :=
  if ok then NoError else FormatError.

(** [QSettings::sync]: without pending writes the file is only read again;
    with pending writes the file has to be writable, and is rewritten with
    the pending entries laid over the ones read. *)
Definition QSettings_sync (h : QSettings) (w : World) : QSettings * World :=
  let '(kv, ok) := readIniFile (files w !! qs_fileName h) in
  if decide (qs_pending h = ∅) then
    (mkQSettings (qs_fileName h) (qs_pending h)
       (setStatus (qs_status h) (format_status ok)), w)
  else if decide (qs_fileName h ∈ unwritable w) then
    (mkQSettings (qs_fileName h) (qs_pending h)
       (setStatus (qs_status h) AccessError), w)
  else
    (mkQSettings (qs_fileName h) ∅
       (setStatus (qs_status h) (format_status ok)),
     set_files (<[qs_fileName h := Ini (qs_pending h ∪ kv)]> (files w)) w).

(** [new QSettings(fileName, QSettings::IniFormat)]: the file is read once
    on construction. *)
Definition QSettings_new (fileName : string) (w : World) : QSettings :=
  fst (QSettings_sync (mkQSettings fileName ∅ NoError) w).

(** [QSettings::value(key)]: a pending write wins over the file. *)
Definition QSettings_value (h : QSettings) (key : string) (w : World)
  : option string :=
  match qs_pending h !! key with
  | Some v => Some v
  | None => fst (readIniFile (files w !! qs_fileName h)) !! key
  end.

(** [QSettings::setValue(key, value)]. *)
Definition QSettings_setValue (key value : string) (h : QSettings)
  : QSettings :=
  mkQSettings (qs_fileName h) (<[key := value]> (qs_pending h)) (qs_status h).

(** [FilePath::isExistingFile] and [QFile::exists]. *)
Definition isExistingFile (p : string) (w : World) : bool :=
  bool_decide (is_Some (files w !! p)).

(** [QFile::remove]: [false] when there is no such file or the file cannot
    be deleted. *)
Definition QFile_remove (p : string) (w : World) : bool * World :=
  if isExistingFile p w && bool_decide (p ∉ undeletable w)
  then (true, set_files (delete p (files w)) w)
  else (false, w).

(** [QFile::copy]: never overwrites; [false] when the source is missing,
    the destination exists or the destination cannot be written. *)
Definition QFile_copy (src dst : string) (w : World) : bool * World :=
  match files w !! src with
  | Some c =>
      if isExistingFile dst w || bool_decide (dst ∈ unwritable w)
      then (false, w)
      else (true, set_files (<[dst := c]> (files w)) w)
  | None => (false, w)
  end.

(** [QFile::open(QIODevice::WriteOnly)] followed by [close]: the file is
    created or truncated. *)
Definition QFile_open_WriteOnly (p : string) (w : World) : bool * World :=
  if bool_decide (p ∈ unwritable w)
  then (false, w)
  else (true, set_files (<[p := Ini ∅]> (files w)) w).

(** [FilePath::getParentDir]: the path up to its last separator. *)
Fixpoint getParentDir (p : string) : string :=
  match p with
  | EmptyString => EmptyString
  | String c p' =>
      if existsb (Ascii.eqb "/") (list_ascii_of_string p')
      then String c (getParentDir p')
      else EmptyString
  end.

(** [QDir::absoluteFilePath] of a relative file name. *)
Definition absoluteFilePath (dir fileName : string) : string :=
  dir ++ "/" ++ fileName.

(** [FilePath::mkPath]: directories are not tracked, only whether the
    operating system lets this one be created. *)
Definition mkPath (dir : string) (w : World) : bool :=
  bool_decide (dir ∉ mkpath_fails w).

(* ===================================================================== *)
(** ** Exceptions and the monad of the methods                            *)
(* ===================================================================== *)

(** The user messages of the exceptions the class throws, one per [throw]
    site family. *)
Inductive Message : Type :=
  | FileDoesNotExist      (* "The file %1 does not exist!" *)
  | CouldNotRemoveFile    (* "Could not remove file %1!" *)
  | CouldNotCopyFile      (* "Could not copy file %1 to %2!" *)
  | ErrorWhileOpening     (* "Error while opening file %1!" *)
  | ErrorWhileWriting     (* "Error while writing to file %1!" *)
  | CannotRemoveFile      (* "Cannot remove file %1" *)
  | CannotCreateDirectory (* "Cannot create directory %1!" *)
  | CannotCreateFile      (* "Cannot create file %1: %2" *)
  | CannotRemoveReadOnly  (* "Cannot remove read-only file!" *)
  | CannotSaveReadOnly.   (* "Cannot save read-only file!" *)

(** [RuntimeError] and [LogicError] of [exceptions.h], with the debug
    message (the offending path or paths) and the user message. *)
Inductive Exception : Type :=
  | RuntimeError (debugMsg : string) (userMsg : Message)
  | LogicError (debugMsg : string) (userMsg : Message).

(** The failure classes the specification speaks of. *)
Inductive ErrorKind : Type := NotFound | IOError | ContractViolation.

Definition kind_of (e : Exception) : ErrorKind :=
  match e with
  | LogicError _ _ => ContractViolation
  | RuntimeError _ FileDoesNotExist => NotFound
  | RuntimeError _ _ => IOError
  end.

Inductive Result (A : Type) : Type :=
  | Ok (a : A)
  | Throw (e : Exception).
Arguments Ok {A} a.
Arguments Throw {A} e.

(** A computation over a state [S] that returns or throws; the state
    survives the throw, as the effects on disk do. *)
Definition M (S A : Type) : Type := S -> Result A * S.

Definition ret {S A} (a : A) : M S A := fun s => (Ok a, s).

Definition throw {S A} (e : Exception) : M S A := fun s => (Throw e, s).

Definition bind {S A B} (m : M S A) (k : A -> M S B) : M S B :=
  fun s =>
    match m s with
    | (Ok a, s') => k a s'
    | (Throw e, s') => (Throw e, s')
    end.

Declare Scope cpp_scope.
Delimit Scope cpp_scope with cpp.
Notation "'let*' x := m 'in' k" := (bind m (fun x => k))
  (at level 10, x name, m at level 100, k at level 200) : cpp_scope.
Notation "m ;; k" := (bind m (fun _ => k))
  (at level 100, k at level 200, right associativity) : cpp_scope.

(** States that contain the environment. *)
Class HasWorld (S : Type) : Type := {
  get_world : S -> World;
  put_world : World -> S -> S
}.

#[global] Instance World_HasWorld : HasWorld World :=
  {| get_world := fun w => w; put_world := fun w _ => w |}.

(** An effect on the environment, lifted to any state that has one. *)
Definition io {S} `{HasWorld S} {A} (f : World -> A * World) : M S A :=
  fun s => let '(a, w') := f (get_world s) in (Ok a, put_world w' s).

(** A query of the environment. *)
Definition ask {S} `{HasWorld S} {A} (f : World -> A) : M S A :=
  fun s => (Ok (f (get_world s)), s).

(* ===================================================================== *)
(** ** The class [IniFile]                                                 *)
(* ===================================================================== *)

(** A [QSettings*]: the address of a handle. *)
Definition Ptr : Type := nat.

(** The members.  [mSettings] lists the handles that are alive, each with
    its address and the state of the object behind it. *)
Record IniFile : Type := mkIniFile {
  mFilepath : string;
  mTmpFilepath : string;
  mIsReadOnly : bool;
  mSettings : list (Ptr * QSettings);
  mFileVersion : Z
}.

(** The state of a method: the object and the environment. *)
Definition Obj : Type := (IniFile * World)%type.

#[global] Instance Obj_HasWorld : HasWorld Obj :=
  {| get_world := snd; put_world := fun w s => (fst s, w) |}.

Definition this {A} (f : IniFile -> A) : M Obj A :=
  fun s => (Ok (f (fst s)), s).

(** Assignments to the members. *)
Definition with_mTmpFilepath (p : string) (o : IniFile) : IniFile :=
  mkIniFile (mFilepath o) p (mIsReadOnly o) (mSettings o) (mFileVersion o).

Definition with_mSettings (l : list (Ptr * QSettings)) (o : IniFile)
  : IniFile :=
  mkIniFile (mFilepath o) (mTmpFilepath o) (mIsReadOnly o) l (mFileVersion o).

Definition with_mFileVersion (v : Z) (o : IniFile) : IniFile :=
  mkIniFile (mFilepath o) (mTmpFilepath o) (mIsReadOnly o) (mSettings o) v.

Definition set_mTmpFilepath (p : string) : M Obj unit :=
  fun s => (Ok tt, (with_mTmpFilepath p (fst s), snd s)).

Definition set_mSettings (l : list (Ptr * QSettings)) : M Obj unit :=
  fun s => (Ok tt, (with_mSettings l (fst s), snd s)).

Definition set_mFileVersion (v : Z) : M Obj unit :=
  fun s => (Ok tt, (with_mFileVersion v (fst s), snd s)).

(** The path of the backup: [mFilepath.toStr() % '~']. *)
Definition backupPath (filepath : string) : string := filepath ++ "~".

(** An address that no live handle has, for [new QSettings]. *)
Definition fresh_ptr (l : list (Ptr * QSettings)) : Ptr :=
  S (foldr Nat.max 0%nat (map fst l)).

(** [QList::removeOne]: the first entry with this address. *)
Fixpoint removeOne (p : Ptr) (l : list (Ptr * QSettings))
  : list (Ptr * QSettings) :=
  match l with
  | [] => []
  | (q, h) :: l' => if Nat.eqb p q then l' else (q, h) :: removeOne p l'
  end.

Fixpoint lookup_ptr (p : Ptr) (l : list (Ptr * QSettings))
  : option QSettings :=
  match l with
  | [] => None
  | (q, h) :: l' => if Nat.eqb p q then Some h else lookup_ptr p l'
  end.

Fixpoint update_ptr (p : Ptr) (h' : QSettings) (l : list (Ptr * QSettings))
  : list (Ptr * QSettings) :=
  match l with
  | [] => []
  | (q, h) :: l' =>
      if Nat.eqb p q then (q, h') :: l' else (q, h) :: update_ptr p h' l'
  end.

Local Open Scope cpp_scope.

(** [IniFile::createQSettings]. *)
Definition createQSettings : M Obj Ptr :=
  let* tmp := this mTmpFilepath in
  let* settings := ask (QSettings_new tmp) in
  if decide (qs_status settings = NoError) then
    let* l := this mSettings in
    let p := fresh_ptr l in
    set_mSettings (l ++ [(p, settings)]);;
    ret p
  else
    throw (RuntimeError tmp ErrorWhileOpening).

(** [IniFile::releaseQSettings]; it is [noexcept].  The two [Q_ASSERT]s
    make a pointer that is not registered a caller's error: nothing is done
    for one. *)
Definition releaseQSettings (settings : Ptr) : M Obj unit :=
  let* l := this mSettings in
  match lookup_ptr settings l with
  | Some h =>
      let* h' := io (QSettings_sync h) in
      if decide (qs_status h' = NoError) then
        set_mSettings (removeOne settings l)
      else
        (* the handle stays alive and registered *)
        set_mSettings (update_ptr settings h' l)
  | None => ret tt
  end.

(** [settings->setValue(key, value)] through a pointer held by a caller. *)
Definition setValue (settings : Ptr) (key value : string) : M Obj unit :=
  let* l := this mSettings in
  match lookup_ptr settings l with
  | Some h =>
      set_mSettings (update_ptr settings (QSettings_setValue key value h) l)
  | None => ret tt
  end.

(** [settings->value(key)] through a pointer held by a caller. *)
Definition value (settings : Ptr) (key : string) : M Obj (option string) :=
  let* l := this mSettings in
  match lookup_ptr settings l with
  | Some h => ask (QSettings_value h key)
  | None => ret None
  end.

(** The reserved key of the version. *)
Definition file_version_key : string := "meta/file_version".

(** [IniFile::setFileVersion]. *)
Definition setFileVersion (version : Z) : M Obj unit :=
  let* s := createQSettings in
  setValue s file_version_key (QString_number version);;
  set_mFileVersion version;;
  releaseQSettings s.

(** The [foreach] of [IniFile::save]: every registered handle is flushed
    in turn, and the first one whose status is not clean stops the loop.
    The handles are objects on the heap, so what the flushes did to them
    stays. *)
Fixpoint sync_all (l : list (Ptr * QSettings)) (w : World)
  : bool * list (Ptr * QSettings) * World :=
  match l with
  | [] => (true, [], w)
  | (p, h) :: l' =>
      let '(h', w') := QSettings_sync h w in
      if decide (qs_status h' = NoError) then
        let '(ok, l'', w'') := sync_all l' w' in (ok, (p, h') :: l'', w'')
      else (false, (p, h') :: l', w')
  end.

Definition sync_registered : M Obj bool :=
  fun s =>
    let '(ok, l, w) := sync_all (mSettings (fst s)) (snd s) in
    (set_mSettings l;; ret ok) (fst s, w).

(** [IniFile::save]. *)
Definition save (toOriginal : bool) : M Obj unit :=
  let* ro := this mIsReadOnly in
  if ro then throw (LogicError "" CannotSaveReadOnly) else
  let* path := this mFilepath in
  let filepath := if toOriginal then path else backupPath path in
  let* clean := sync_registered in
  if negb clean then throw (RuntimeError filepath ErrorWhileWriting) else
  (* remove the target file *)
  let* present := ask (isExistingFile filepath) in
  let* removed := if present then io (QFile_remove filepath) else ret true in
  if negb removed then throw (RuntimeError filepath CouldNotRemoveFile) else
  (* copy the temp file to the target *)
  let* tmp := this mTmpFilepath in
  let* copied := io (QFile_copy tmp filepath) in
  if negb copied
  then throw (RuntimeError (tmp ++ ":" ++ filepath)%string CouldNotCopyFile)
  else
  (* check if the target file exists *)
  let* written := ask (isExistingFile filepath) in
  if negb written then throw (RuntimeError filepath ErrorWhileWriting) else
  ret tt.

(** One step of [IniFile::remove]: [if (exists(p)) if (!remove(p))
    success = false]. *)
Definition remove_if_exists (p : string) (success : bool) : M Obj bool :=
  let* present := ask (isExistingFile p) in
  if present then
    let* removed := io (QFile_remove p) in
    ret (if removed then success else false)
  else ret success.

(** [IniFile::remove]. *)
Definition remove : M Obj unit :=
  let success := true in
  let* ro := this mIsReadOnly in
  if ro then throw (LogicError "" CannotRemoveReadOnly) else
  let* path := this mFilepath in
  let* success := remove_if_exists path success in
  let* success := remove_if_exists (backupPath path) success in
  let* l := this mSettings in
  let* success :=
    match l with
    | [] => let* tmp := this mTmpFilepath in remove_if_exists tmp success
    | _ :: _ => ret success (* qCritical: handles are outstanding *)
    end in
  if negb success then throw (RuntimeError path CouldNotRemoveFile) else
  ret tt.

(** The body of the constructor, run on the object as the member
    initialisers leave it. *)
Definition IniFile_ctor (restore : bool) : M Obj unit :=
  let* path := this mFilepath in
  (* decide if we open the original file or the backup *)
  let* backup := ask (isExistingFile (backupPath path)) in
  let iniFilepath :=
    if negb restore || negb backup then path else backupPath path in
  (* check if the file exists *)
  let* present := ask (isExistingFile iniFilepath) in
  if negb present then throw (RuntimeError iniFilepath FileDoesNotExist) else
  (* a unique file name in the temporary directory *)
  let* tmp := ask (fun w => absoluteFilePath (tempPath w)
                              ("EDA4U/" ++ tmpFilename iniFilepath)) in
  set_mTmpFilepath tmp;;
  let* _ := ask (mkPath (getParentDir tmp)) in
  (* remove the temporary file if it exists already *)
  let* stale := ask (isExistingFile tmp) in
  let* removed := if stale then io (QFile_remove tmp) else ret true in
  if negb removed then throw (RuntimeError tmp CouldNotRemoveFile) else
  (* copy the INI file to the temporary file *)
  let* copied := io (QFile_copy iniFilepath tmp) in
  if negb copied
  then throw (RuntimeError (iniFilepath ++ ":" ++ tmp)%string
                CouldNotCopyFile)
  else
  (* read the file version *)
  let* s := createQSettings in
  let* v := value s file_version_key in
  set_mFileVersion (match QVariant_toInt v with Some n => n | None => -1 end);;
  releaseQSettings s.

(** [new IniFile(filepath, restore, readOnly)]: an exception of the
    constructor leaves no object, and no destructor runs. *)
Definition IniFile_new (filepath : string) (restore readOnly : bool)
  : M World IniFile :=
  fun w =>
    match IniFile_ctor restore (mkIniFile filepath "" readOnly [] (-1), w) with
    | (Ok _, (obj, w')) => (Ok obj, w')
    | (Throw e, (_, w')) => (Throw e, w')
    end.

(** [QSettings::~QSettings]: writes that are still pending are flushed,
    and the handle is gone whatever the flush answers. *)
Definition QSettings_dtor (h : QSettings) (w : World) : World :=
  snd (QSettings_sync h w).

(** [qDeleteAll(mSettings)]: the handles left in the registry are
    destroyed in the order of the list. *)
Definition qDeleteAll (l : list (Ptr * QSettings)) (w : World) : World :=
  fold_left (fun w' ph => QSettings_dtor (snd ph) w') l w.

(** [IniFile::~IniFile]: the handles left are deleted (line 88), then the
    temporary file and (unless read-only) the backup are removed, whatever
    [QFile::remove] answers.  With an empty registry lines 85-89 do
    nothing, as [qDeleteAll] does on the empty list. *)
Definition IniFile_dtor (obj : IniFile) (w : World) : World :=
  let w0 := qDeleteAll (mSettings obj) w in
  let w1 := snd (QFile_remove (mTmpFilepath obj) w0) in
  if mIsReadOnly obj then w1
  else snd (QFile_remove (backupPath (mFilepath obj)) w1).

(** [IniFile::create]. *)
Definition create (filepath : string) (version : Z) : M World IniFile :=
  (* remove the file if it exists already *)
  let* present := ask (isExistingFile filepath) in
  let* removed := if present then io (QFile_remove filepath) else ret true in
  if negb removed then throw (RuntimeError filepath CannotRemoveFile) else
  (* create all parent directories *)
  let* made := ask (mkPath (getParentDir filepath)) in
  if negb made then throw (RuntimeError filepath CannotCreateDirectory) else
  (* create an empty temporary file *)
  let* opened := io (QFile_open_WriteOnly (backupPath filepath)) in
  if negb opened then throw (RuntimeError filepath CannotCreateFile) else
  (* open and return the new INI file object *)
  let* obj := IniFile_new filepath true false in
  if version >? -1 then
    fun w =>
      match (setFileVersion version;; save false) (obj, w) with
      | (Ok _, (obj', w')) => (Ok obj', w')
      | (Throw e, (obj', w')) => (Throw e, IniFile_dtor obj' w')
      end
  else ret obj.

Local Close Scope cpp_scope.

(* ===================================================================== *)
(** ** Vocabulary of the statements                                        *)
(* ===================================================================== *)

(** The target of [save]: line 198. *)
Definition targetPath (toOriginal : bool) (o : IniFile) : string :=
  if toOriginal then mFilepath o else backupPath (mFilepath o).

(** The source of the working copy, in the words of the specification:
    the backup if [restore] is set and the backup exists, the original
    file otherwise. *)
Definition chosen_source (path : string) (restore : bool) (w : World)
  : string :=
  if restore && isExistingFile (backupPath path) w
  then backupPath path else path.

(** The path of the working copy made from the file [iniFilepath]:
    line 53. *)
Definition shadowPath (w : World) (iniFilepath : string) : string :=
  absoluteFilePath (tempPath w) ("EDA4U/" ++ tmpFilename iniFilepath).

(** The version the constructor caches for a file with these entries:
    lines 78-79. *)
Definition version_of (kv : gmap string string) : Z :=
  match QVariant_toInt (kv !! file_version_key) with
  | Some n => n
  | None => -1
  end.

(** Every registered handle is bound to the file [f]; [createQSettings]
    binds each handle to [mTmpFilepath]. *)
Definition bound_to (f : string) (l : list (Ptr * QSettings)) : Prop :=
  Forall (fun ph => qs_fileName (snd ph) = f) l.

(** The invariant of a store: every registered handle is a handle on the
    store's temporary file. *)
Definition registry_ok (o : IniFile) : Prop :=
  bound_to (mTmpFilepath o) (mSettings o).

(** The invariant of the registry: the handles are bound to the temporary
    file, and no two of them have the same address. *)
Definition registry_inv (o : IniFile) : Prop :=
  registry_ok o /\ NoDup (map fst (mSettings o)).

(** The engine can parse what is at [f] (or there is nothing at [f]). *)
Definition parses (f : string) (w : World) : Prop :=
  snd (readIniFile (files w !! f)) = true.

#[global] Instance parses_dec f w : Decision (parses f w).
Proof. unfold parses. apply _. Defined.

(** A handle that has nothing to flush and has met no error. *)
Definition at_rest (h : QSettings) : Prop :=
  qs_pending h = ∅ /\ qs_status h = NoError.

(** No registered handle holds a write or an error. *)
Definition registry_at_rest (o : IniFile) : Prop :=
  Forall (fun ph => at_rest (snd ph)) (mSettings o).

(** The environment apart from the files' contents. *)
Definition same_env (w w' : World) : Prop :=
  undeletable w' = undeletable w /\ unwritable w' = unwritable w
  /\ mkpath_fails w' = mkpath_fails w /\ tempPath w' = tempPath w.

(** The operating system lets this path be deleted and written. *)
Definition free_path (w : World) (p : string) : Prop :=
  (p ∉ undeletable w) /\ (p ∉ unwritable w).

(** The entries of a store that [create] has just given a version. *)
Definition fresh_entries (v : Z) : gmap string string :=
  <[file_version_key := QString_number v]> ∅.

(** The files [remove] is to delete: the original file, the backup and,
    when no handle is outstanding, the temporary file (lines 163-182). *)
Definition remove_targets (o : IniFile) : list string :=
  mFilepath o :: backupPath (mFilepath o)
  :: match mSettings o with
     | [] => [mTmpFilepath o]
     | _ :: _ => []
     end.

(** Guarded deletions in a row, as [remove] does them. *)
Fixpoint remove_each (ps : list string) (success : bool) : M Obj bool :=
  match ps with
  | [] => ret success
  | p :: ps' => bind (remove_if_exists p success) (remove_each ps')
  end.

(** Deletions only: a file is gone or as it was, and a file that cannot be
    deleted is as it was. *)
Definition only_deletes (w w' : World) : Prop :=
  same_env w w'
  /\ forall q, (files w' !! q = None \/ files w' !! q = files w !! q)
               /\ (q ∈ undeletable w -> files w' !! q = files w !! q).

(** No character of the string is white space. *)
Fixpoint no_space (s : string) : bool :=
  match s with
  | EmptyString => true
  | String c s' => negb (is_space c) && no_space s'
  end.

(* ===================================================================== *)
(** ** Concrete environments and stores                                    *)
(* ===================================================================== *)

Module Sample.

(** The entries of a file that holds the version [n] and nothing else. *)
Definition version_entries (n : Z) : gmap string string :=
  {[ file_version_key := QString_number n ]}.

(** A temporary directory and nothing else. *)
Definition no_files : World := mkWorld ∅ ∅ ∅ ∅ "/tmp".

(** An original file with version 3 and a backup with version 4. *)
Definition with_backup : World :=
  mkWorld (<["/a.ini" := Ini (version_entries 3)]>
             (<["/a.ini~" := Ini (version_entries 4)]> ∅))
          ∅ ∅ ∅ "/tmp".

(** A file without the version key. *)
Definition without_version : World :=
  mkWorld {[ "/a.ini" := Ini {[ "general/name" := "board" ]} ]}
          ∅ ∅ ∅ "/tmp".

(** A file whose version is not a number. *)
Definition with_bad_version : World :=
  mkWorld {[ "/a.ini" := Ini {[ file_version_key := "one" ]} ]}
          ∅ ∅ ∅ "/tmp".

(** A file the engine cannot parse. *)
Definition with_garbage : World :=
  mkWorld {[ "/a.ini" := Malformed "[[[" ]} ∅ ∅ ∅ "/tmp".

(** The working copy of ["/a.ini"]. *)
Definition tmp_a : string := shadowPath no_files "/a.ini".

(** The store of ["/a.ini"], version 3, with its working copy in place;
    [locked] tells whether the working copy can still be written. *)
Definition opened (locked : bool) : World :=
  mkWorld (<["/a.ini" := Ini (version_entries 3)]>
             (<[tmp_a := Ini (version_entries 3)]> ∅))
          ∅ (if locked then {[ tmp_a ]} else ∅) ∅ "/tmp".

Definition store (readOnly : bool) (l : list (Ptr * QSettings)) : IniFile :=
  mkIniFile "/a.ini" tmp_a readOnly l 3.

(** The same store and files, with the paths [undel] refused for
    deletion and the paths [unwr] refused for writing. *)
Definition opened_env (undel unwr : gset string) : World :=
  mkWorld (<["/a.ini" := Ini (version_entries 3)]>
             (<[tmp_a := Ini (version_entries 3)]> ∅))
          undel unwr ∅ "/tmp".

(** Nothing on disk, and a backup path of ["/p.ini"] that cannot be
    deleted. *)
Definition sticky_backup : World := mkWorld ∅ {[ "/p.ini~" ]} ∅ ∅ "/tmp".

(** A handle on the working copy with one write that is not flushed. *)
Definition editing : QSettings :=
  mkQSettings tmp_a {[ "general/name" := "board" ]} NoError.

(** A handle on the working copy with nothing to flush. *)
Definition idle : QSettings := mkQSettings tmp_a ∅ NoError.

End Sample.

(** Running the monad: the binds and the accesses to the object and to the
    environment are computed away, the calls of the model stay. *)
Ltac mbeta :=
  cbn [get_world put_world Obj_HasWorld World_HasWorld fst snd
       with_mTmpFilepath with_mSettings with_mFileVersion
       mFilepath mTmpFilepath mIsReadOnly mSettings mFileVersion negb].

Ltac msimpl :=
  unfold bind, ret, throw, this, ask, io,
    set_mSettings, set_mTmpFilepath, set_mFileVersion;
  mbeta.

Ltac msimpl_in H :=
  unfold bind, ret, throw, this, ask, io,
    set_mSettings, set_mTmpFilepath, set_mFileVersion in H;
  cbn [get_world put_world Obj_HasWorld World_HasWorld fst snd
       with_mTmpFilepath with_mSettings with_mFileVersion
       mFilepath mTmpFilepath mIsReadOnly mSettings mFileVersion negb] in H.

(* ===================================================================== *)
(** ** Test vectors                                                        *)
(* ===================================================================== *)

Example sha256_constants :
  nth 0 Sha256.K 0 = 0x428a2f98 /\ nth 63 Sha256.K 0 = 0xc67178f2
  /\ length Sha256.K = 64%nat
  /\ nth 0 Sha256.H0 0 = 0x6a09e667 /\ nth 7 Sha256.H0 0 = 0x5be0cd19
  /\ length Sha256.H0 = 8%nat.
Proof. repeat split; reflexivity. Qed.

Example tmpFilename_abc :
  tmpFilename "abc" = "ungWv48Bz-pBQUDeXa4iI7ADYaOWF3qctBD_YfIAFa0"%string.
Proof. vm_compute. reflexivity. Qed.

Example tmpFilename_empty :
  tmpFilename "" = "47DEQpj8HBSa-_TImW-5JCeuQeRkm5NMpJWZG3hSuFU"%string.
Proof. vm_compute. reflexivity. Qed.

Example tmpFilename_two_blocks :
  tmpFilename "aaaaaaaaaaaaaaaaaaaaaaaaaaaaaaaaaaaaaaaaaaaaaaaaaaaaaaaa"
  = "s1Q5pKxvCUi21vnjxq8PX1kM4g8b3nCQ73lwaG7Gc4o"%string.
Proof. vm_compute. reflexivity. Qed.

Example toInt_7 : QVariant_toInt (Some " +7 ") = Some 7.
Proof. reflexivity. Qed.

Example toInt_neg : QVariant_toInt (Some (QString_number (-12))) = Some (-12).
Proof. reflexivity. Qed.

Example toInt_junk : QVariant_toInt (Some "1.5") = None.
Proof. reflexivity. Qed.

Example toInt_missing : QVariant_toInt None = None.
Proof. reflexivity. Qed.

Example toInt_overflow :
  QVariant_toInt (Some "2147483648") = Some (-2147483648).
Proof. reflexivity. Qed.

(* ===================================================================== *)
(** ** Facts about the file system                                         *)
(* ===================================================================== *)

Section FileSystem.

Implicit Types (w : World) (p q src dst : string).

Lemma isExistingFile_true p w :
  isExistingFile p w = true <-> is_Some (files w !! p).
Proof. unfold isExistingFile. apply bool_decide_eq_true. Qed.

Lemma isExistingFile_false p w :
  isExistingFile p w = false <-> files w !! p = None.
Proof.
  unfold isExistingFile. rewrite bool_decide_eq_false.
  rewrite eq_None_not_Some. reflexivity.
Qed.

Lemma isExistingFile_set_files_insert p q c w :
  isExistingFile p (set_files (<[q := c]> (files w)) w)
  = if decide (q = p) then true else isExistingFile p w.
Proof.
  unfold isExistingFile. simpl. rewrite lookup_insert.
  destruct (decide (q = p)); [| reflexivity].
  apply bool_decide_eq_true. eauto.
Qed.

Lemma QFile_remove_ok p w :
  is_Some (files w !! p) -> p ∉ undeletable w ->
  QFile_remove p w = (true, set_files (delete p (files w)) w).
Proof.
  intros Hp Hd. unfold QFile_remove.
  apply isExistingFile_true in Hp. rewrite Hp.
  rewrite bool_decide_eq_true_2 by assumption. reflexivity.
Qed.

Lemma QFile_remove_inv p w b w' :
  QFile_remove p w = (b, w') ->
  (b = true /\ w' = set_files (delete p (files w)) w)
  \/ (b = false /\ w' = w).
Proof.
  unfold QFile_remove.
  destruct (isExistingFile p w && bool_decide (p ∉ undeletable w));
    intros [= <- <-]; auto.
Qed.

Lemma QFile_copy_ok src dst c w :
  files w !! src = Some c -> files w !! dst = None -> dst ∉ unwritable w ->
  QFile_copy src dst w = (true, set_files (<[dst := c]> (files w)) w).
Proof.
  intros Hs Hd Hw. unfold QFile_copy. rewrite Hs.
  apply isExistingFile_false in Hd. rewrite Hd.
  rewrite bool_decide_eq_false_2 by assumption. reflexivity.
Qed.

Lemma QFile_copy_inv src dst w b w' :
  QFile_copy src dst w = (b, w') ->
  (b = true /\ exists c, files w !! src = Some c /\ files w !! dst = None
               /\ w' = set_files (<[dst := c]> (files w)) w)
  \/ (b = false /\ w' = w).
Proof.
  unfold QFile_copy. destruct (files w !! src) as [c|] eqn:Hs.
  - destruct (isExistingFile dst w) eqn:Hd; simpl.
    + intros [= <- <-]; auto.
    + destruct (bool_decide (dst ∈ unwritable w)); intros [= <- <-]; auto.
      left. split; [reflexivity|]. exists c.
      apply isExistingFile_false in Hd. auto.
  - intros [= <- <-]; auto.
Qed.

Lemma string_length_app (a b : string) :
  String.length (a ++ b) = (String.length a + String.length b)%nat.
Proof. induction a as [|c a IH]; simpl; [reflexivity | now rewrite IH]. Qed.

(** A path is not its own backup. *)
Lemma backupPath_neq p : backupPath p ≠ p.
Proof.
  unfold backupPath. intros H.
  apply (f_equal String.length) in H.
  rewrite string_length_app in H. simpl in H. lia.
Qed.

End FileSystem.

(* ===================================================================== *)
(** ** The name of a working copy                                          *)
(* ===================================================================== *)

Section WorkingCopyName.

Lemma chars_app (a b : string) :
  list_ascii_of_string (a ++ b)
  = (list_ascii_of_string a ++ list_ascii_of_string b)%list.
Proof. induction a as [|c a IH]; simpl; [reflexivity | now rewrite IH]. Qed.

(** No base64 digit is a tilde. *)
Lemma digit_not_tilde i : Base64Url.digit i ≠ "~"%char.
Proof.
  unfold Base64Url.digit. generalize (Z.to_nat i). intros n.
  do 64 (destruct n as [|n]; [simpl; discriminate|]).
  simpl. discriminate.
Qed.

Lemma encode_no_tilde fuel : forall bs,
  Forall (fun c => c ≠ "~"%char)
         (list_ascii_of_string (Base64Url.encode fuel bs)).
Proof.
  induction fuel as [|fuel IH]; intros bs; simpl; [constructor|].
  destruct bs as [|b0 [|b1 [|b2 rest]]]; simpl;
    repeat (constructor; [apply digit_not_tilde|]); auto.
Qed.

(** A string that ends with characters other than a tilde is not a
    backup path. *)
Lemma not_a_backupPath (a b p : string) :
  b ≠ EmptyString ->
  Forall (fun c => c ≠ "~"%char) (list_ascii_of_string b) ->
  (a ++ b)%string ≠ backupPath p.
Proof.
  intros Hb Hall E. apply (f_equal list_ascii_of_string) in E.
  unfold backupPath in E. rewrite !chars_app in E. simpl in E.
  destruct (exists_last (l := list_ascii_of_string b)) as (l' & x & Hl).
  { destruct b; [congruence | discriminate]. }
  rewrite Hl, app_assoc in E.
  apply app_inj_tail in E as [_ ->].
  rewrite Hl in Hall. apply Forall_app in Hall as [_ Hx].
  apply Forall_cons in Hx as [Hx _]. congruence.
Qed.

(** The working copy of a file is never the backup of a file. *)
Lemma shadowPath_not_backup w x p : shadowPath w x ≠ backupPath p.
Proof.
  unfold shadowPath, absoluteFilePath.
  apply not_a_backupPath; [discriminate|].
  simpl. repeat (constructor; [discriminate|]).
  apply encode_no_tilde.
Qed.

End WorkingCopyName.

(* ===================================================================== *)
(** ** Read-only stores                                                    *)
(* ===================================================================== *)

(** C6. On a store whose read-only flag is set, [save] (for either target)
    and [remove] throw a [LogicError], and neither changes a file, a handle
    or a member: the state after the call is the state before it. *)
Theorem readonly_rejects_save_and_remove (o : IniFile) (w : World)
    (toOriginal : bool) :
  mIsReadOnly o = true ->
  save toOriginal (o, w) = (Throw (LogicError "" CannotSaveReadOnly), (o, w))
  /\ remove (o, w) = (Throw (LogicError "" CannotRemoveReadOnly), (o, w))
  /\ kind_of (LogicError "" CannotSaveReadOnly) = ContractViolation
  /\ kind_of (LogicError "" CannotRemoveReadOnly) = ContractViolation.
Proof.
  intros Hro. unfold save, remove, bind, this, throw. simpl.
  rewrite Hro. auto.
Qed.

(* ===================================================================== *)
(** ** [remove]                                                            *)
(* ===================================================================== *)

Section Remove.

Implicit Types (o : IniFile) (w : World) (p q : string).

(** What one guarded deletion does: the file is gone afterwards and the
    flag is kept, or the deletion was refused, nothing changed and the
    flag is down. *)
Lemma remove_if_exists_spec p b o w :
  exists b' w',
    remove_if_exists p b (o, w) = (Ok b', (o, w'))
    /\ ((b' = b /\ files w' !! p = None
         /\ forall q, files w !! q = None -> files w' !! q = None)
        \/ (b' = false /\ w' = w)).
Proof.
  unfold remove_if_exists. msimpl.
  destruct (isExistingFile p w) eqn:Hex; msimpl.
  - destruct (QFile_remove p w) as [r w1] eqn:Hrm. msimpl.
    destruct (QFile_remove_inv _ _ _ _ Hrm) as [[-> ->]|[-> ->]].
    + eexists _, _. split; [reflexivity|]. left. simpl.
      split; [reflexivity|]. split; [apply lookup_delete_eq|].
      intros q Hq. rewrite lookup_delete. case_decide; auto.
    + eexists _, _. split; [reflexivity|]. right. auto.
  - eexists _, _. split; [reflexivity|]. left.
    apply isExistingFile_false in Hex. auto.
Qed.

(** On files that are not there, a guarded deletion does nothing. *)
Lemma remove_if_exists_absent p b o w :
  files w !! p = None -> remove_if_exists p b (o, w) = (Ok b, (o, w)).
Proof.
  intros Hp. apply isExistingFile_false in Hp.
  unfold remove_if_exists. msimpl. now rewrite Hp.
Qed.

(** C8. [remove] twice in a row: on a store without outstanding handles,
    a first [remove] that succeeded has left neither the original file,
    nor the backup, nor the temporary file; a second [remove] on the same
    store then succeeds as well and changes nothing, since a file that
    does not exist is not an error. *)
Theorem remove_twice o w o' w' :
  mSettings o = [] ->
  remove (o, w) = (Ok tt, (o', w')) ->
  o' = o
  /\ files w' !! mFilepath o = None
  /\ files w' !! backupPath (mFilepath o) = None
  /\ files w' !! mTmpFilepath o = None
  /\ remove (o, w') = (Ok tt, (o, w')).
Proof.
  intros Hreg. unfold remove. msimpl.
  destruct (mIsReadOnly o) eqn:Hro; [discriminate|]. msimpl.
  destruct (remove_if_exists_spec (mFilepath o) true o w)
    as (b1 & w1 & E1 & H1).
  rewrite E1. msimpl.
  destruct (remove_if_exists_spec (backupPath (mFilepath o)) b1 o w1)
    as (b2 & w2 & E2 & H2).
  rewrite E2. msimpl. rewrite Hreg. msimpl.
  destruct (remove_if_exists_spec (mTmpFilepath o) b2 o w2)
    as (b3 & w3 & E3 & H3).
  rewrite E3. msimpl.
  destruct b3; msimpl; [| discriminate].
  intros [= <- <-].
  destruct H3 as [(<- & Ht & F3)|[? _]]; [|discriminate].
  destruct H2 as [(<- & Hb & F2)|[? _]]; [|discriminate].
  destruct H1 as [(_ & Hp & F1)|[? _]]; [|discriminate].
  assert (Hp' : files w3 !! mFilepath o = None) by auto.
  assert (Hb' : files w3 !! backupPath (mFilepath o) = None) by auto.
  repeat (split; [solve [auto]|]).
  rewrite (remove_if_exists_absent _ _ _ _ Hp'). msimpl.
  rewrite (remove_if_exists_absent _ _ _ _ Hb'). msimpl.
  rewrite Hreg. msimpl.
  rewrite (remove_if_exists_absent _ _ _ _ Ht). reflexivity.
Qed.

End Remove.

(* ===================================================================== *)
(** ** Handles and the registry                                            *)
(* ===================================================================== *)

Section Handles.

Implicit Types (h : QSettings) (w : World) (f p : string)
  (l : list (Ptr * QSettings)).

Lemma same_env_refl w : same_env w w.
Proof. unfold same_env; auto. Qed.

Lemma same_env_set_files m w : same_env w (set_files m w).
Proof. unfold same_env; auto. Qed.

Lemma same_env_trans w1 w2 w3 :
  same_env w1 w2 -> same_env w2 w3 -> same_env w1 w3.
Proof. unfold same_env. intuition congruence. Qed.

Lemma setStatus_NoError st new :
  setStatus st new = NoError -> st = NoError /\ new = NoError.
Proof. destruct st; simpl; intros; auto; discriminate. Qed.

Lemma setStatus_sticky st new : st ≠ NoError -> setStatus st new = st.
Proof. destruct st; simpl; congruence. Qed.

(** A flush with nothing pending reads the file again and writes
    nothing. *)
Lemma QSettings_sync_read f st w :
  QSettings_sync (mkQSettings f ∅ st) w
  = (mkQSettings f ∅
       (setStatus st (format_status (snd (readIniFile (files w !! f))))),
     w).
Proof.
  unfold QSettings_sync. simpl.
  destruct (readIniFile (files w !! f)) as [kv ok].
  case_decide; [reflexivity | congruence].
Qed.

(** A flush of pending writes to a file that can be written. *)
Lemma QSettings_sync_write f pend st w :
  pend ≠ ∅ -> f ∉ unwritable w ->
  QSettings_sync (mkQSettings f pend st) w
  = (mkQSettings f ∅
       (setStatus st (format_status (snd (readIniFile (files w !! f))))),
     set_files
       (<[f := Ini (pend ∪ fst (readIniFile (files w !! f)))]> (files w))
       w).
Proof.
  intros Hp Hw. unfold QSettings_sync. simpl.
  destruct (readIniFile (files w !! f)) as [kv ok].
  case_decide; [congruence|]. case_decide; [contradiction | reflexivity].
Qed.

(** A flush of pending writes to a file that cannot be written. *)
Lemma QSettings_sync_denied f pend st w :
  pend ≠ ∅ -> f ∈ unwritable w ->
  QSettings_sync (mkQSettings f pend st) w
  = (mkQSettings f pend (setStatus st AccessError), w).
Proof.
  intros Hp Hw. unfold QSettings_sync. simpl.
  destruct (readIniFile (files w !! f)) as [kv ok].
  case_decide; [congruence|]. case_decide; [reflexivity | contradiction].
Qed.

(** What any flush keeps and what it may change. *)
Lemma QSettings_sync_frame h w h' w' :
  QSettings_sync h w = (h', w') ->
  qs_fileName h' = qs_fileName h
  /\ same_env w w'
  /\ (forall p, p ≠ qs_fileName h -> files w' !! p = files w !! p)
  /\ (forall p, parses p w -> parses p w')
  /\ (qs_status h ≠ NoError -> qs_status h' ≠ NoError)
  /\ (qs_status h' = NoError ->
      qs_pending h' = ∅ /\ parses (qs_fileName h) w').
Proof.
  destruct h as [f pend st]. simpl.
  destruct (decide (pend = ∅)) as [->|Hp].
  - rewrite QSettings_sync_read. intros [= <- <-]. simpl.
    repeat split; auto using same_env_refl.
    + intros Hst. now rewrite setStatus_sticky.
    + apply setStatus_NoError in H as [_ H].
      unfold parses. destruct (snd (readIniFile (files w !! f)));
        [reflexivity | discriminate].
  - destruct (decide (f ∈ unwritable w)) as [Hw|Hw].
    + rewrite QSettings_sync_denied by assumption.
      intros [= <- <-]. simpl.
      repeat split; auto using same_env_refl.
      * intros Hst. now rewrite setStatus_sticky.
      * apply setStatus_NoError in H as [_ H]. discriminate.
      * apply setStatus_NoError in H as [_ H]. discriminate.
    + rewrite QSettings_sync_write by assumption.
      intros [= <- <-]. simpl.
      repeat split; auto using same_env_set_files.
      * intros p Hne. now rewrite lookup_insert_ne by congruence.
      * intros p. unfold parses. simpl. rewrite lookup_insert.
        case_decide; auto.
      * intros Hst. now rewrite setStatus_sticky.
      * unfold parses. simpl. now rewrite lookup_insert_eq.
Qed.

Lemma bound_to_app f l l' :
  bound_to f (l ++ l') <-> bound_to f l /\ bound_to f l'.
Proof. unfold bound_to. apply Forall_app. Qed.

(** The flush of the whole registry: what it keeps. *)
Lemma sync_all_frame f l : forall w ok l' w',
  bound_to f l ->
  sync_all l w = (ok, l', w') ->
  bound_to f l'
  /\ map fst l' = map fst l
  /\ same_env w w'
  /\ (forall p, p ≠ f -> files w' !! p = files w !! p)
  /\ (forall p, parses p w -> parses p w').
Proof.
  induction l as [|[q h] l IH]; intros w ok l' w' Hb; simpl.
  - intros [= <- <- <-]. auto using same_env_refl.
  - apply Forall_cons in Hb as [Hh Hb]. simpl in Hh.
    destruct (QSettings_sync h w) as [h1 w1] eqn:Hs.
    destruct (QSettings_sync_frame _ _ _ _ Hs)
      as (Hn & He & Hf & Hp & _ & _).
    rewrite Hh in *.
    case_decide.
    + destruct (sync_all l w1) as [[ok2 l2] w2] eqn:Hrec.
      intros [= <- <- <-].
      destruct (IH _ _ _ _ Hb Hrec) as (Hb2 & Hm & He2 & Hf2 & Hp2).
      split; [constructor; auto|]. split; [simpl; congruence|].
      split; [eauto using same_env_trans|].
      split; [intros p Hne; rewrite Hf2, Hf; auto | auto].
    + intros [= <- <- <-].
      split; [constructor; auto|]. split; [reflexivity|]. auto.
Qed.

(** A registry with a handle that has met an error does not flush
    clean: the status of a handle is never reset. *)
Lemma sync_all_dirty l : forall w,
  Exists (fun ph => qs_status (snd ph) ≠ NoError) l ->
  fst (fst (sync_all l w)) = false.
Proof.
  induction l as [|[q h] l IH]; intros w Hex.
  - inversion Hex.
  - simpl. destruct (QSettings_sync h w) as [h1 w1] eqn:Hs.
    destruct (QSettings_sync_frame _ _ _ _ Hs) as (_ & _ & _ & _ & Hst & _).
    case_decide as Hc; [|reflexivity].
    apply Exists_cons in Hex as [Hex|Hex]; [simpl in Hex; tauto|].
    specialize (IH w1 Hex).
    destruct (sync_all l w1) as [[ok2 l2] w2]. exact IH.
Qed.

(** After a clean flush every handle is at rest, and the file parses if
    there is a handle at all. *)
Lemma sync_all_clean f l : forall w l' w',
  bound_to f l ->
  sync_all l w = (true, l', w') ->
  Forall (fun ph => at_rest (snd ph)) l' /\ (l ≠ [] -> parses f w').
Proof.
  induction l as [|[q h] l IH]; intros w l' w' Hb; simpl.
  - intros [= <- <-]. split; [constructor | congruence].
  - apply Forall_cons in Hb as [Hh Hb]. simpl in Hh.
    destruct (QSettings_sync h w) as [h1 w1] eqn:Hs.
    destruct (QSettings_sync_frame _ _ _ _ Hs)
      as (_ & _ & _ & _ & _ & Hrest).
    case_decide as Hc; [|discriminate].
    destruct (sync_all l w1) as [[ok2 l2] w2] eqn:Hrec.
    intros [= -> <- <-].
    destruct (IH _ _ _ Hb Hrec) as [Hall _].
    destruct (sync_all_frame f _ _ _ _ _ Hb Hrec) as (_ & _ & _ & _ & Hp).
    destruct (Hrest Hc) as [Hpend Hparse]. rewrite Hh in Hparse.
    split; [constructor; [split; assumption | assumption] | auto].
Qed.

(** Flushing handles at rest on a file that parses changes nothing. *)
Lemma sync_all_at_rest f l : forall w,
  bound_to f l -> Forall (fun ph => at_rest (snd ph)) l ->
  (l ≠ [] -> parses f w) ->
  sync_all l w = (true, l, w).
Proof.
  induction l as [|[q [g pend st]] l IH]; intros w Hb Hr Hp;
    [reflexivity|].
  apply Forall_cons in Hb as [Hh Hb].
  apply Forall_cons in Hr as [[Hpe Hst] Hr]. simpl in Hh, Hpe, Hst.
  subst g pend st. simpl sync_all.
  rewrite QSettings_sync_read.
  assert (Hok : parses f w) by (apply Hp; discriminate).
  unfold parses in Hok. rewrite Hok. simpl.
  rewrite IH by (auto; intros _; exact Hok). reflexivity.
Qed.

End Handles.

(* ===================================================================== *)
(** ** [save]                                                              *)
(* ===================================================================== *)

Section Save.

Implicit Types (o : IniFile) (w : World) (l : list (Ptr * QSettings)).

Lemma set_files_insert_delete p c w :
  set_files (<[p := c]> (files (set_files (delete p (files w)) w)))
    (set_files (delete p (files w)) w)
  = set_files (<[p := c]> (files w)) w.
Proof. unfold set_files. simpl. now rewrite insert_delete_eq. Qed.

(** A flush that is not clean: [save] throws and does nothing more. *)
Lemma save_dirty toOriginal o w l w1 :
  mIsReadOnly o = false ->
  sync_all (mSettings o) w = (false, l, w1) ->
  save toOriginal (o, w)
  = (Throw (RuntimeError (targetPath toOriginal o) ErrorWhileWriting),
     (with_mSettings l o, w1)).
Proof.
  intros Hro Hs. unfold save, sync_registered. msimpl.
  rewrite Hro. msimpl. rewrite Hs. msimpl. reflexivity.
Qed.

(** A successful [save], read backwards: the flush was clean, the
    temporary file existed and is not the target, and the target now
    holds what the temporary file holds. *)
Lemma save_Ok_inv toOriginal o w o1 w1 :
  save toOriginal (o, w) = (Ok tt, (o1, w1)) ->
  mIsReadOnly o = false
  /\ exists l w0 c,
       sync_all (mSettings o) w = (true, l, w0)
       /\ o1 = with_mSettings l o
       /\ files w0 !! mTmpFilepath o = Some c
       /\ mTmpFilepath o ≠ targetPath toOriginal o
       /\ w1 = set_files (<[targetPath toOriginal o := c]> (files w0)) w0.
Proof.
  unfold save, sync_registered. msimpl.
  destruct (mIsReadOnly o) eqn:Hro; [discriminate|]. msimpl.
  fold (targetPath toOriginal o). set (t := targetPath toOriginal o).
  destruct (sync_all (mSettings o) w) as [[ok l] w0] eqn:Hs. msimpl.
  destruct ok; msimpl; [|discriminate].
  intros H. split; [reflexivity|]. exists l, w0.
  destruct (isExistingFile t w0) eqn:Hex; msimpl_in H.
  - destruct (QFile_remove t w0) as [r wr] eqn:Hrm. msimpl_in H.
    destruct (QFile_remove_inv _ _ _ _ Hrm) as [[-> ->]|[-> ->]];
      msimpl_in H; [|discriminate].
    destruct (QFile_copy (mTmpFilepath o) t _) as [cp wc] eqn:Hcp.
    msimpl_in H.
    destruct (QFile_copy_inv _ _ _ _ _ Hcp)
      as [(-> & c & Hsrc & Hdst & ->)|[-> ->]]; msimpl_in H; [|discriminate].
    rewrite isExistingFile_set_files_insert in H.
    rewrite decide_True in H by reflexivity. msimpl_in H.
    injection H as <- <-.
    simpl in Hsrc. rewrite lookup_delete in Hsrc.
    case_decide as Hne; [discriminate|].
    exists c. repeat split; auto.
    unfold set_files. simpl. now rewrite insert_delete_eq.
  - destruct (QFile_copy (mTmpFilepath o) t _) as [cp wc] eqn:Hcp.
    msimpl_in H.
    destruct (QFile_copy_inv _ _ _ _ _ Hcp)
      as [(-> & c & Hsrc & Hdst & ->)|[-> ->]]; msimpl_in H; [|discriminate].
    rewrite isExistingFile_set_files_insert in H.
    rewrite decide_True in H by reflexivity. msimpl_in H.
    injection H as <- <-.
    exists c. repeat split; auto. congruence.
Qed.

(** A clean flush, an existing temporary file and a target that can be
    deleted and written: [save] succeeds. *)
Lemma save_clean toOriginal o w l w0 c :
  mIsReadOnly o = false ->
  sync_all (mSettings o) w = (true, l, w0) ->
  files w0 !! mTmpFilepath o = Some c ->
  mTmpFilepath o ≠ targetPath toOriginal o ->
  targetPath toOriginal o ∉ undeletable w0 ->
  targetPath toOriginal o ∉ unwritable w0 ->
  save toOriginal (o, w)
  = (Ok tt, (with_mSettings l o,
             set_files (<[targetPath toOriginal o := c]> (files w0)) w0)).
Proof.
  intros Hro Hs Htmp Hne Hdel Hwr. unfold save, sync_registered. msimpl.
  rewrite Hro. msimpl.
  fold (targetPath toOriginal o). set (t := targetPath toOriginal o) in *.
  rewrite Hs. msimpl.
  destruct (isExistingFile t w0) eqn:Hex; msimpl.
  - apply isExistingFile_true in Hex.
    rewrite (QFile_remove_ok _ _ Hex Hdel). msimpl.
    rewrite (QFile_copy_ok _ _ c).
    + msimpl. rewrite isExistingFile_set_files_insert.
      rewrite decide_True by reflexivity. msimpl.
      now rewrite set_files_insert_delete.
    + simpl. now rewrite lookup_delete_ne by congruence.
    + simpl. apply lookup_delete_eq.
    + exact Hwr.
  - apply isExistingFile_false in Hex.
    rewrite (QFile_copy_ok _ _ c) by assumption.
    msimpl. rewrite isExistingFile_set_files_insert.
    rewrite decide_True by reflexivity. reflexivity.
Qed.

(** C2. A flush that reports a status that is not clean: on a store
    that is not read-only, whatever the number of registered handles,
    [save] then throws an I/O error, and the environment it leaves is the
    one the flushes left: no file was deleted or copied.  The flushes
    write to the file the handles are bound to, the temporary file, so a
    target other than the temporary file holds what it held (or is as
    absent as it was). *)
Theorem save_flush_failure_keeps_target o w toOriginal :
  mIsReadOnly o = false ->
  fst (fst (sync_all (mSettings o) w)) = false ->
  exists e o' w',
    save toOriginal (o, w) = (Throw e, (o', w'))
    /\ kind_of e = IOError
    /\ w' = snd (sync_all (mSettings o) w)
    /\ (bound_to (mTmpFilepath o) (mSettings o) ->
        mTmpFilepath o ≠ targetPath toOriginal o ->
        files w' !! targetPath toOriginal o
        = files w !! targetPath toOriginal o).
Proof.
  intros Hro Hdirty.
  destruct (sync_all (mSettings o) w) as [[ok l] w1] eqn:Hs.
  simpl in Hdirty. subst ok.
  eexists _, _, _. split; [apply (save_dirty _ _ _ _ _ Hro Hs)|].
  split; [reflexivity|]. split; [reflexivity|]. simpl.
  intros Hb Hne.
  destruct (sync_all_frame _ _ _ _ _ _ Hb Hs) as (_ & _ & _ & Hf & _).
  apply Hf. congruence.
Qed.


End Save.

(* ===================================================================== *)
(** ** Opening a store: the constructor                                    *)
(* ===================================================================== *)

Section Open.

Implicit Types (o : IniFile) (w : World) (path : string).

(** The constructor's choice (line 39) is the specification's. *)
Lemma ctor_source_is_chosen_source path restore w :
  (if negb restore || negb (isExistingFile (backupPath path) w)
   then path else backupPath path)
  = chosen_source path restore w.
Proof.
  unfold chosen_source.
  destruct restore, (isExistingFile (backupPath path) w); reflexivity.
Qed.

Lemma fresh_ptr_not_registered (l : list (Ptr * QSettings)) :
  lookup_ptr (fresh_ptr l) l = None.
Proof.
  assert (H : forall p, (foldr Nat.max 0 (map fst l) < p)%nat ->
                        lookup_ptr p l = None).
  { induction l as [|[q h] l IH]; intros p Hp; [reflexivity|].
    simpl in *. destruct (Nat.eqb_spec p q); [lia|]. apply IH. lia. }
  apply H. unfold fresh_ptr. lia.
Qed.

Lemma lookup_ptr_app_fresh (l : list (Ptr * QSettings)) p h :
  lookup_ptr p l = None -> lookup_ptr p (l ++ [(p, h)]) = Some h.
Proof.
  induction l as [|[q g] l IH]; simpl.
  - now rewrite Nat.eqb_refl.
  - destruct (Nat.eqb p q); [discriminate | exact IH].
Qed.

Lemma removeOne_app_fresh (l : list (Ptr * QSettings)) p h :
  lookup_ptr p l = None -> removeOne p (l ++ [(p, h)]) = l.
Proof.
  induction l as [|[q g] l IH]; simpl.
  - now rewrite Nat.eqb_refl.
  - destruct (Nat.eqb p q); [discriminate|]. intros H. now rewrite IH.
Qed.

Lemma update_ptr_app_fresh (l : list (Ptr * QSettings)) p h h' :
  lookup_ptr p l = None ->
  update_ptr p h' (l ++ [(p, h)]) = l ++ [(p, h')].
Proof.
  induction l as [|[q g] l IH]; simpl.
  - now rewrite Nat.eqb_refl.
  - destruct (Nat.eqb p q); [discriminate|]. intros H. now rewrite IH.
Qed.

(** [createQSettings] on a file the engine can parse registers a handle
    at rest under a fresh address. *)
Lemma createQSettings_ok o w :
  parses (mTmpFilepath o) w ->
  createQSettings (o, w)
  = (Ok (fresh_ptr (mSettings o)),
     (with_mSettings
        (mSettings o
         ++ [(fresh_ptr (mSettings o),
              mkQSettings (mTmpFilepath o) ∅ NoError)]) o, w)).
Proof.
  intros Hp. unfold createQSettings, QSettings_new. msimpl.
  rewrite QSettings_sync_read. unfold parses in Hp. rewrite Hp. simpl.
  msimpl. reflexivity.
Qed.

(** [createQSettings] on a file the engine cannot parse throws and
    registers nothing. *)
Lemma createQSettings_fail o w :
  ~ parses (mTmpFilepath o) w ->
  createQSettings (o, w)
  = (Throw (RuntimeError (mTmpFilepath o) ErrorWhileOpening), (o, w)).
Proof.
  intros Hp. unfold createQSettings, QSettings_new. msimpl.
  rewrite QSettings_sync_read. unfold parses in Hp.
  destruct (snd (readIniFile (files w !! mTmpFilepath o)));
    [congruence|]. simpl. msimpl. reflexivity.
Qed.

(** Lines 76-80 on a store without handles: the version is read through
    one handle, which is released again; on a file the engine cannot
    parse, [createQSettings] throws. *)
Lemma read_version_spec o w c :
  mSettings o = [] ->
  files w !! mTmpFilepath o = Some c ->
  bind createQSettings (fun s =>
    bind (value s file_version_key) (fun v =>
      bind (set_mFileVersion
              (match QVariant_toInt v with Some n => n | None => -1 end))
           (fun _ => releaseQSettings s))) (o, w)
  = match c with
    | Ini kv => (Ok tt, (with_mFileVersion (version_of kv) o, w))
    | Malformed _ =>
        (Throw (RuntimeError (mTmpFilepath o) ErrorWhileOpening), (o, w))
    end.
Proof.
  intros Hreg Hc. destruct c as [kv|raw].
  - unfold bind at 1. rewrite createQSettings_ok
      by (unfold parses; now rewrite Hc).
    rewrite Hreg. simpl app. unfold value, releaseQSettings. msimpl.
    simpl lookup_ptr. msimpl. unfold QSettings_value. simpl.
    rewrite lookup_empty, Hc. simpl. rewrite QSettings_sync_read.
    msimpl. rewrite Hc. simpl. msimpl.
    unfold version_of, with_mFileVersion. simpl. now rewrite Hreg.
  - unfold bind at 1. rewrite createQSettings_fail; [reflexivity|].
    unfold parses. rewrite Hc. simpl. discriminate.
Qed.

(** Everything [new IniFile] can do, by what is on disk. *)
Lemma IniFile_new_cases path restore ro w :
  let src := chosen_source path restore w in
  let tmp := shadowPath w src in
  match files w !! src with
  | None =>
      IniFile_new path restore ro w
      = (Throw (RuntimeError src FileDoesNotExist), w)
  | Some c =>
      (IniFile_new path restore ro w
       = (Throw (RuntimeError tmp CouldNotRemoveFile), w)
       /\ is_Some (files w !! tmp) /\ tmp ∈ undeletable w)
      \/ (exists w1,
            IniFile_new path restore ro w
            = (Throw (RuntimeError (src ++ ":" ++ tmp) CouldNotCopyFile),
               w1)
            /\ files w1 !! tmp = None
            /\ (tmp = src \/ tmp ∈ unwritable w))
      \/ (tmp ≠ src /\ (tmp ∉ unwritable w)
          /\ (is_Some (files w !! tmp) -> tmp ∉ undeletable w)
          /\ IniFile_new path restore ro w
             = (match c with
                | Ini kv => Ok (mkIniFile path tmp ro [] (version_of kv))
                | Malformed _ => Throw (RuntimeError tmp ErrorWhileOpening)
                end,
                set_files (<[tmp := c]> (files w)) w))
  end.
Proof.
  intros src tmp. unfold IniFile_new, IniFile_ctor. msimpl.
  rewrite ctor_source_is_chosen_source. fold src.
  destruct (files w !! src) as [c|] eqn:Hsrc.
  2:{ apply isExistingFile_false in Hsrc. rewrite Hsrc. msimpl.
      reflexivity. }
  assert (Hex : isExistingFile src w = true)
    by (apply isExistingFile_true; eauto).
  rewrite Hex. msimpl.
  change (absoluteFilePath (tempPath w) ("EDA4U/" ++ tmpFilename src))
    with tmp.
  (* the state after the stale temporary file is dealt with *)
  assert (Hcopy : forall w1 : World,
    same_env w w1 -> files w1 !! tmp = None ->
    (tmp ≠ src -> files w1 !! src = Some c) ->
    (tmp = src -> files w1 !! src = None) ->
    set_files (<[tmp := c]> (files w1)) w1
      = set_files (<[tmp := c]> (files w)) w ->
    let r :=
      match
        bind (io (QFile_copy src tmp)) (fun copied =>
          if negb copied
          then throw (RuntimeError (src ++ ":" ++ tmp) CouldNotCopyFile)
          else
            bind createQSettings (fun s =>
              bind (value s file_version_key) (fun v =>
                bind (set_mFileVersion
                        (match QVariant_toInt v with
                         | Some n => n | None => -1 end))
                     (fun _ => releaseQSettings s))))
          (mkIniFile path tmp ro [] (-1), w1)
      with
      | (Ok _, (obj, w')) => (Ok obj, w')
      | (Throw e, (_, w')) => (Throw e, w')
      end in
    (exists w2,
        r = (Throw (RuntimeError (src ++ ":" ++ tmp) CouldNotCopyFile), w2)
        /\ files w2 !! tmp = None /\ (tmp = src \/ tmp ∈ unwritable w))
    \/ (tmp ≠ src /\ (tmp ∉ unwritable w)
        /\ r = (match c with
                | Ini kv => Ok (mkIniFile path tmp ro [] (version_of kv))
                | Malformed _ => Throw (RuntimeError tmp ErrorWhileOpening)
                end,
                set_files (<[tmp := c]> (files w)) w))).
  { intros w1 (_ & Hunw & _ & _) Hnone Hne Heq Hworld r. subst r.
    unfold bind at 1. unfold io at 1. mbeta.
    destruct (decide (tmp = src)) as [E|E].
    - left. unfold QFile_copy. rewrite (Heq E). msimpl.
      eexists. split; [reflexivity|]. auto.
    - destruct (decide (tmp ∈ unwritable w)) as [U|U].
      + left. unfold QFile_copy. rewrite (Hne E).
        apply isExistingFile_false in Hnone. rewrite Hnone.
        rewrite bool_decide_eq_true_2 by (rewrite Hunw; exact U). msimpl.
        eexists. split; [reflexivity|].
        apply isExistingFile_false in Hnone. auto.
      + right. split; [exact E|]. split; [exact U|].
        unfold bind at 1. unfold io at 1. mbeta.
        rewrite (QFile_copy_ok _ _ c) by (rewrite ?Hunw; auto). mbeta.
        rewrite (read_version_spec _ _ c);
          [| reflexivity | simpl; apply lookup_insert_eq].
        rewrite Hworld. destruct c; reflexivity. }
  destruct (isExistingFile tmp w) eqn:Hstale; msimpl.
  - apply isExistingFile_true in Hstale.
    destruct (decide (tmp ∈ undeletable w)) as [D|D].
    + left. unfold QFile_remove.
      rewrite bool_decide_eq_false_2 by tauto.
      rewrite andb_false_r. msimpl. auto.
    + right. rewrite (QFile_remove_ok _ _ Hstale D). msimpl.
      assert (P1 : files (set_files (delete tmp (files w)) w) !! tmp = None)
        by apply lookup_delete_eq.
      assert (P2 : tmp ≠ src ->
                   files (set_files (delete tmp (files w)) w) !! src
                   = Some c).
      { intros E. simpl. rewrite lookup_delete_ne by exact E. exact Hsrc. }
      assert (P3 : tmp = src ->
                   files (set_files (delete tmp (files w)) w) !! src = None).
      { intros E. simpl. rewrite <- E. apply lookup_delete_eq. }
      destruct (Hcopy _ (same_env_set_files _ _) P1 P2 P3
                  (set_files_insert_delete _ _ _)) as [L|(E & U & R)].
      * left. exact L.
      * right. auto.
  - right. apply isExistingFile_false in Hstale.
    assert (P2 : tmp ≠ src -> files w !! src = Some c) by auto.
    assert (P3 : tmp = src -> files w !! src = None) by congruence.
    destruct (Hcopy _ (same_env_refl _) Hstale P2 P3 eq_refl)
      as [L|(E & U & R)].
    + left. exact L.
    + right. repeat split; auto. intros [x Hx]. congruence.
Qed.

End Open.

(* ===================================================================== *)
(** ** Writing a version and reading it back                               *)
(* ===================================================================== *)

Section Decimal.

Lemma ltrim_no_space s : no_space s = true -> ltrim s = s.
Proof.
  destruct s as [|c s]; simpl; [reflexivity|].
  destruct (is_space c); [discriminate | reflexivity].
Qed.

Lemma rtrim_no_space s : no_space s = true -> rtrim s = s.
Proof.
  induction s as [|c s IH]; simpl; [reflexivity|].
  destruct (is_space c); simpl; [discriminate|].
  intros H. rewrite (IH H). destruct s; reflexivity.
Qed.

Lemma no_space_uint d : no_space (NilEmpty.string_of_uint d) = true.
Proof. induction d; simpl; auto. Qed.

Lemma no_space_number n : no_space (QString_number n) = true.
Proof.
  unfold QString_number, NilZero.string_of_int, NilZero.string_of_uint.
  destruct (Z.to_int n) as [d|d]; destruct d; simpl;
    auto using no_space_uint.
Qed.

(** A string that does not start with a plus sign is parsed from its
    first character on. *)
Lemma signed_parse c s :
  c ≠ "+"%char ->
  match String c s with
  | String "+" t' => option_map Decimal.Pos (NilZero.uint_of_string t')
  | _ => NilZero.int_of_string (String c s)
  end = NilZero.int_of_string (String c s).
Proof.
  intros Hc.
  destruct c as [[] [] [] [] [] [] [] []]; try reflexivity.
  contradiction Hc; reflexivity.
Qed.

Lemma number_head n :
  exists c s, QString_number n = String c s /\ c ≠ "+"%char.
Proof.
  unfold QString_number, NilZero.string_of_int, NilZero.string_of_uint.
  destruct (Z.to_int n) as [d|d]; destruct d; simpl;
    eexists _, _; (split; [reflexivity | discriminate]).
Qed.

Lemma to_int_not_nil n :
  Z.to_int n ≠ Decimal.Pos Decimal.Nil
  /\ Z.to_int n ≠ Decimal.Neg Decimal.Nil.
Proof.
  destruct n as [|p|p]; simpl; split; try discriminate;
    intros [= H]; revert H; apply DecimalPos.Unsigned.to_uint_nonnil.
Qed.

(** What [QString::number] writes, [QVariant::toInt] reads back. *)
Lemma toInt_number n :
  is_int n -> QVariant_toInt (Some (QString_number n)) = Some n.
Proof.
  intros [Hlo Hhi]. unfold INT_MIN, INT_MAX in *.
  unfold QVariant_toInt, QString_toLongLong.
  rewrite (ltrim_no_space _ (no_space_number n)).
  rewrite (rtrim_no_space _ (no_space_number n)).
  destruct (number_head n) as (c & s & E & Hc).
  rewrite E, (signed_parse _ _ Hc), <- E.
  unfold QString_number.
  destruct (to_int_not_nil n) as [Hp Hn].
  rewrite (NilZero.isi _ Hp Hn), DecimalZ.of_to.
  assert ((LLONG_MIN <=? n) = true) as ->
      by (apply Z.leb_le; unfold LLONG_MIN; lia).
  assert ((n <=? LLONG_MAX) = true) as ->
      by (apply Z.leb_le; unfold LLONG_MAX; lia).
  simpl. f_equal. unfold to_int32.
  rewrite Z.mod_small by lia. lia.
Qed.

Lemma version_of_written (kv : gmap string string) v :
  is_int v ->
  version_of (<[file_version_key := QString_number v]> kv) = v.
Proof.
  intros Hv. unfold version_of.
  rewrite lookup_insert_eq. now rewrite toInt_number.
Qed.

End Decimal.

(* ===================================================================== *)
(** ** [setFileVersion]                                                    *)
(* ===================================================================== *)

Section SetFileVersion.

Implicit Types (o : IniFile) (w : World) (v : Z).

Lemma with_mSettings_same o : with_mSettings (mSettings o) o = o.
Proof. now destruct o. Qed.

(** The handle cannot be opened: [setFileVersion] throws what
    [createQSettings] throws, and nothing has changed. *)
Lemma setFileVersion_fail o w v e s :
  createQSettings (o, w) = (Throw e, s) ->
  setFileVersion v (o, w) = (Throw e, s).
Proof. intros H. unfold setFileVersion, bind at 1. now rewrite H. Qed.

Lemma createQSettings_Ok_inv o w p s :
  createQSettings (o, w) = (Ok p, s) -> parses (mTmpFilepath o) w.
Proof.
  intros H. destruct (decide (parses (mTmpFilepath o) w)) as [|N]; auto.
  rewrite (createQSettings_fail _ _ N) in H. discriminate.
Qed.

Lemma parses_entries f w :
  parses f w ->
  files w !! f = None
  \/ files w !! f = Some (Ini (fst (readIniFile (files w !! f)))).
Proof.
  unfold parses. destruct (files w !! f) as [[kv|raw]|]; simpl; auto.
  discriminate.
Qed.

(** The state of the object in the middle of [setFileVersion], before
    the handle is released. *)
Lemma setFileVersion_unfold o w v :
  parses (mTmpFilepath o) w ->
  setFileVersion v (o, w)
  = releaseQSettings (fresh_ptr (mSettings o))
      (with_mFileVersion v
         (with_mSettings
            (mSettings o
             ++ [(fresh_ptr (mSettings o),
                  mkQSettings (mTmpFilepath o)
                    (<[file_version_key := QString_number v]> ∅)
                    NoError)]) o), w).
Proof.
  intros Hp. unfold setFileVersion, bind at 1.
  rewrite (createQSettings_ok _ _ Hp).
  unfold setValue. msimpl.
  rewrite (lookup_ptr_app_fresh _ _ _ (fresh_ptr_not_registered _)).
  msimpl. rewrite (update_ptr_app_fresh _ _ _ _ (fresh_ptr_not_registered _)).
  reflexivity.
Qed.

(** The flush of the release succeeds: the handle is gone again and the
    temporary file has the version. *)
Lemma setFileVersion_flushed o w v :
  parses (mTmpFilepath o) w ->
  mTmpFilepath o ∉ unwritable w ->
  setFileVersion v (o, w)
  = (Ok tt,
     (with_mFileVersion v o,
      set_files
        (<[mTmpFilepath o :=
             Ini (<[file_version_key := QString_number v]>
                    (fst (readIniFile (files w !! mTmpFilepath o))))]>
           (files w)) w)).
Proof.
  intros Hp Hw. rewrite (setFileVersion_unfold _ _ _ Hp).
  unfold releaseQSettings. msimpl.
  rewrite (lookup_ptr_app_fresh _ _ _ (fresh_ptr_not_registered _)).
  msimpl. rewrite QSettings_sync_write; [| apply insert_non_empty | exact Hw].
  unfold parses in Hp. rewrite Hp. simpl. msimpl.
  rewrite (removeOne_app_fresh _ _ _ (fresh_ptr_not_registered _)).
  rewrite <- insert_union_l, (left_id_L ∅ (∪)).
  destruct o; reflexivity.
Qed.

(** The flush of the release fails: [releaseQSettings] does not throw,
    the handle stays registered with its error. *)
Lemma setFileVersion_retained o w v :
  parses (mTmpFilepath o) w ->
  mTmpFilepath o ∈ unwritable w ->
  setFileVersion v (o, w)
  = (Ok tt,
     (with_mFileVersion v
        (with_mSettings
           (mSettings o
            ++ [(fresh_ptr (mSettings o),
                 mkQSettings (mTmpFilepath o)
                   (<[file_version_key := QString_number v]> ∅)
                   AccessError)]) o), w)).
Proof.
  intros Hp Hw. rewrite (setFileVersion_unfold _ _ _ Hp).
  unfold releaseQSettings. msimpl.
  rewrite (lookup_ptr_app_fresh _ _ _ (fresh_ptr_not_registered _)).
  msimpl. rewrite QSettings_sync_denied; [| apply insert_non_empty | exact Hw].
  simpl. msimpl.
  rewrite (update_ptr_app_fresh _ _ _ _ (fresh_ptr_not_registered _)).
  reflexivity.
Qed.

(** C7, as the code has it.  [setFileVersion] opens a handle, writes the
    version key, updates the cached version and releases the handle.  It
    throws exactly what [createQSettings] throws, the store then being
    as it was.  [releaseQSettings] never throws: once the handle is open,
    [setFileVersion] returns normally with the cached version updated,
    also when the flush of the release fails; the handle then stays
    registered with its error, the file is not written, and a later
    [save] throws an I/O error. *)
Theorem setFileVersion_outcomes o w v :
  (forall e s, createQSettings (o, w) = (Throw e, s) ->
               setFileVersion v (o, w) = (Throw e, s) /\ s = (o, w))
  /\ (forall p s, createQSettings (o, w) = (Ok p, s) ->
        exists o' w',
          setFileVersion v (o, w) = (Ok tt, (o', w'))
          /\ mFileVersion o' = v
          /\ (((mTmpFilepath o ∉ unwritable w)
               /\ mSettings o' = mSettings o
               /\ exists kv, files w' !! mTmpFilepath o = Some (Ini kv)
                    /\ kv !! file_version_key = Some (QString_number v))
              \/ (mTmpFilepath o ∈ unwritable w
                  /\ w' = w
                  /\ (exists h, mSettings o' = mSettings o ++ [(p, h)]
                                /\ qs_status h = AccessError)
                  /\ forall toOriginal, mIsReadOnly o = false ->
                       exists e s',
                         save toOriginal (o', w') = (Throw e, s')
                         /\ kind_of e = IOError))).
Proof.
  split.
  - intros e s H. split; [now apply setFileVersion_fail|].
    destruct (decide (parses (mTmpFilepath o) w)) as [Y|N].
    + rewrite (createQSettings_ok _ _ Y) in H. discriminate.
    + rewrite (createQSettings_fail _ _ N) in H. congruence.
  - intros p s H. pose proof (createQSettings_Ok_inv _ _ _ _ H) as Hp.
    rewrite (createQSettings_ok _ _ Hp) in H. injection H as <- <-.
    destruct (decide (mTmpFilepath o ∈ unwritable w)) as [U|U].
    + eexists _, _. split; [apply (setFileVersion_retained _ _ _ Hp U)|].
      split; [reflexivity|]. right.
      split; [exact U|]. split; [reflexivity|].
      split; [eexists; split; reflexivity|].
      intros toOriginal Hro.
      match goal with |- context [save _ (?o1, _)] => set (o' := o1) end.
      destruct (sync_all (mSettings o') w) as [[ok l] w1] eqn:Hs.
      assert (ok = false) as ->.
      { change ok with (fst (fst (ok, l, w1))). rewrite <- Hs.
        apply sync_all_dirty. subst o'. simpl.
        apply Exists_app. right. constructor. simpl. discriminate. }
      eexists _, _.
      split; [apply (save_dirty toOriginal o' w l w1 Hro Hs)|].
      reflexivity.
    + eexists _, _. split; [apply (setFileVersion_flushed _ _ _ Hp U)|].
      split; [reflexivity|]. left.
      split; [exact U|]. split; [reflexivity|].
      eexists. simpl. split; [apply lookup_insert_eq|].
      apply lookup_insert_eq.
Qed.

End SetFileVersion.

(* ===================================================================== *)
(** ** Properties of opening                                               *)
(* ===================================================================== *)

Section OpenProperties.

Implicit Types (o : IniFile) (w : World) (path : string).

(** Opening succeeds when the source is there and parses, and the
    temporary file can be put in place. *)
Lemma IniFile_new_ok path restore ro w kv :
  let src := chosen_source path restore w in
  let tmp := shadowPath w src in
  files w !! src = Some (Ini kv) ->
  tmp ≠ src -> tmp ∉ unwritable w -> tmp ∉ undeletable w ->
  IniFile_new path restore ro w
  = (Ok (mkIniFile path tmp ro [] (version_of kv)),
     set_files (<[tmp := Ini kv]> (files w)) w).
Proof.
  intros src tmp Hsrc Hne Hw Hd.
  pose proof (IniFile_new_cases path restore ro w) as H.
  cbv zeta in H. fold src tmp in H. rewrite Hsrc in H.
  destruct H as [(_ & _ & D)|[(w1 & _ & _ & [E|U])|(_ & _ & _ & H)]];
    [contradiction.. | exact H].
Qed.

(** C1, as the code has it.  The path of the working copy is the
    temporary directory joined with ["EDA4U/"] and the URL-safe,
    padding-free base64 text of the SHA-256 hash of the bytes of the path
    of the file the copy is made from: the backup when [restore] is set
    and the backup exists, the original file otherwise.  So two opens of
    one path with the same choice of source get the same working copy,
    and an open that does not restore from a backup gets the one derived
    from the original path. *)
Theorem shadow_path_of_source path restore ro w o w' :
  IniFile_new path restore ro w = (Ok o, w') ->
  mTmpFilepath o
  = absoluteFilePath (tempPath w)
      ("EDA4U/"
       ++ Base64Url.toBase64
            (Sha256.hash (toLocal8Bit (chosen_source path restore w))))
  /\ (restore && isExistingFile (backupPath path) w = false ->
      mTmpFilepath o = shadowPath w path)
  /\ (restore && isExistingFile (backupPath path) w = true ->
      mTmpFilepath o = shadowPath w (backupPath path)).
Proof.
  intros Hopen.
  pose proof (IniFile_new_cases path restore ro w) as H. cbv zeta in H.
  assert (Htmp : mTmpFilepath o
                 = shadowPath w (chosen_source path restore w)).
  { destruct (files w !! chosen_source path restore w) as [c|].
    - destruct H as [(H & _)|[(w1 & H & _)|(_ & _ & _ & H)]];
        rewrite H in Hopen; try discriminate.
      destruct c; [|discriminate]. now injection Hopen as <- _.
    - rewrite H in Hopen. discriminate. }
  split; [exact Htmp|].
  unfold chosen_source in Htmp.
  split; intros E; rewrite E in Htmp; exact Htmp.
Qed.

(** C5. The source of the working copy is the backup if [restore] is
    set and the backup exists, and the original file otherwise (this is
    [chosen_source]).  The working copy is made from that source: when the
    source parses and the temporary file can be put in place (it is not
    the source itself, and it can be deleted and written), the open
    succeeds, the temporary file holds what the source holds and the
    cached version is the one read from these entries; and after any open
    that succeeded the temporary file holds the entries of that source.
    The open fails with "not found" exactly when that source does not
    exist, in which case nothing has changed. *)
Theorem open_source_selection path restore ro w :
  let src := chosen_source path restore w in
  let tmp := shadowPath w src in
  src = (if restore && isExistingFile (backupPath path) w
         then backupPath path else path)
  /\ (forall kv,
        files w !! src = Some (Ini kv) ->
        tmp ≠ src -> tmp ∉ unwritable w -> tmp ∉ undeletable w ->
        exists w',
          IniFile_new path restore ro w
          = (Ok (mkIniFile path tmp ro [] (version_of kv)), w')
          /\ files w' !! tmp = Some (Ini kv)
          /\ forall q, q ≠ tmp -> files w' !! q = files w !! q)
  /\ (forall o w',
        IniFile_new path restore ro w = (Ok o, w') ->
        exists kv,
          files w !! src = Some (Ini kv)
          /\ files w' !! mTmpFilepath o = Some (Ini kv)
          /\ mFileVersion o = version_of kv)
  /\ ((exists e w',
          IniFile_new path restore ro w = (Throw e, w')
          /\ kind_of e = NotFound)
      <-> files w !! src = None)
  /\ (files w !! src = None ->
      IniFile_new path restore ro w
      = (Throw (RuntimeError src FileDoesNotExist), w)).
Proof.
  intros src tmp.
  split; [reflexivity|].
  split.
  { intros kv Hsrc Hne Hw Hd. eexists. split; [|split].
    - exact (IniFile_new_ok path restore ro w kv Hsrc Hne Hw Hd).
    - simpl. apply lookup_insert_eq.
    - intros q Hq. simpl.
      now rewrite lookup_insert_ne by (intros E; apply Hq; now rewrite <- E). }
  pose proof (IniFile_new_cases path restore ro w) as H.
  cbv zeta in H. fold src in H.
  destruct (files w !! src) as [c|] eqn:Hsrc.
  - split; [|split].
    + intros o w' Hopen.
      destruct H as [(H & _)|[(w1 & H & _)|(_ & _ & _ & H)]];
        rewrite H in Hopen; try discriminate.
      destruct c as [kv|]; [|discriminate]. injection Hopen as <- <-.
      exists kv. simpl. rewrite lookup_insert_eq. auto.
    + split; [|discriminate].
      intros (e & w' & Hopen & Hk). exfalso.
      destruct H as [(H & _)|[(w1 & H & _)|(_ & _ & _ & H)]];
        rewrite H in Hopen.
      * injection Hopen as <- _. discriminate.
      * injection Hopen as <- _. discriminate.
      * destruct c; [discriminate|]. injection Hopen as <- _.
        discriminate.
    + discriminate.
  - split; [|split].
    + intros o w' Hopen. rewrite H in Hopen. discriminate.
    + split; [reflexivity|]. intros _. eexists _, _. split; [exact H|].
      reflexivity.
    + intros _. exact H.
Qed.

(** C9. A file without the version key, or with a value under it that
    does not read as an integer: when the source has such entries and the
    temporary file can be put in place (it is not the original file, and
    it can be deleted and written), the open succeeds and the cached
    version is the "unknown" value [-1]. *)
Theorem open_without_version path restore ro w kv :
  let src := chosen_source path restore w in
  let tmp := shadowPath w src in
  files w !! src = Some (Ini kv) ->
  (kv !! file_version_key = None
   \/ exists s, kv !! file_version_key = Some s
                /\ QString_toLongLong s = None) ->
  tmp ≠ path -> tmp ∉ unwritable w -> tmp ∉ undeletable w ->
  exists o w',
    IniFile_new path restore ro w = (Ok o, w')
    /\ mFileVersion o = -1.
Proof.
  intros src tmp Hsrc Hkey Hne Hw Hd.
  assert (Hns : tmp ≠ src).
  { unfold tmp, src, chosen_source in *.
    destruct (restore && isExistingFile (backupPath path) w);
      [apply shadowPath_not_backup | exact Hne]. }
  eexists _, _.
  split; [apply (IniFile_new_ok _ _ _ _ _ Hsrc Hns Hw Hd)|].
  simpl. unfold version_of.
  destruct Hkey as [->|(s & -> & Hs)]; simpl; [reflexivity|].
  now rewrite Hs.
Qed.

(** C10. An open that fails once the working copy is made, that is,
    when the handle that reads the version cannot be opened: the
    temporary file stays on disk, holding what the source holds.
    Nothing in the failing constructor removes it. *)
Theorem failed_open_leaves_shadow path restore ro w d w' :
  let src := chosen_source path restore w in
  IniFile_new path restore ro w
  = (Throw (RuntimeError d ErrorWhileOpening), w') ->
  d = shadowPath w src
  /\ is_Some (files w' !! shadowPath w src)
  /\ files w' !! shadowPath w src = files w !! src.
Proof.
  intros src Hopen.
  pose proof (IniFile_new_cases path restore ro w) as H.
  cbv zeta in H. fold src in H.
  destruct (files w !! src) as [c|] eqn:Hsrc.
  - destruct H as [(H & _)|[(w1 & H & _)|(_ & _ & _ & H)]];
      rewrite H in Hopen; try discriminate.
    destruct c; [discriminate|]. injection Hopen as <- <-.
    simpl. rewrite lookup_insert_eq. eauto.
  - rewrite H in Hopen. discriminate.
Qed.

End OpenProperties.

(* ===================================================================== *)
(** ** [create], and the round trip                                        *)
(* ===================================================================== *)

Section Create.

Implicit Types (o : IniFile) (w : World) (path : string) (v : Z).

(** [create] succeeds when nothing in the environment is in its way:
    the new store is a draft, its version is in the backup and in the
    temporary file, and there is no original file yet. *)
Lemma create_ok path v w :
  let bk := backupPath path in
  let tmp := shadowPath w bk in
  0 <= v ->
  path ∉ undeletable w ->
  getParentDir path ∉ mkpath_fails w ->
  bk ∉ unwritable w -> bk ∉ undeletable w ->
  tmp ≠ path ->
  tmp ∉ unwritable w -> tmp ∉ undeletable w ->
  exists w1,
    create path v w = (Ok (mkIniFile path tmp false [] v), w1)
    /\ same_env w w1
    /\ files w1 !! path = None
    /\ files w1 !! bk = Some (Ini (fresh_entries v))
    /\ files w1 !! tmp = Some (Ini (fresh_entries v)).
Proof.
  intros bk tmp Hv Hdp Hmk Hwb Hdb Hnp Hwt Hdt.
  assert (Hnb : tmp ≠ bk) by apply shadowPath_not_backup.
  unfold create. msimpl.
  (* the file at [path] is out of the way, one way or the other *)
  destruct (isExistingFile path w) eqn:Hex; msimpl;
    [ apply isExistingFile_true in Hex;
      rewrite (QFile_remove_ok _ _ Hex Hdp); msimpl
    | apply isExistingFile_false in Hex ].
  all: unfold mkPath; simpl mkpath_fails.
  all: rewrite bool_decide_eq_true_2 by exact Hmk; msimpl.
  all: unfold QFile_open_WriteOnly; fold bk; simpl unwritable.
  all: rewrite bool_decide_eq_false_2 by exact Hwb; msimpl.
  (* the constructor copies the empty backup *)
  all: match goal with |- context [IniFile_new _ true false ?W] =>
         set (wb := W) end.
  all: assert (Hsrc : chosen_source path true wb = bk)
         by (unfold chosen_source; fold bk; simpl; unfold wb;
             rewrite isExistingFile_set_files_insert;
             now rewrite decide_True by reflexivity).
  all: assert (Htmp : shadowPath wb bk = tmp) by reflexivity.
  all: rewrite (IniFile_new_ok path true false wb ∅);
         rewrite ?Hsrc, ?Htmp; try assumption;
         [| apply lookup_insert_eq ].
  all: set (wc := set_files (<[tmp := Ini ∅]> (files wb)) wb).
  all: destruct (Z.gtb_spec v (-1)) as [_|]; [|lia].
  (* the version is written and the draft is saved *)
  all: set (o0 := mkIniFile path tmp false [] (version_of ∅)).
  all: assert (Hpc : parses (mTmpFilepath o0) wc)
         by (unfold parses, wc; simpl; now rewrite lookup_insert_eq).
  all: assert (Hwc : mTmpFilepath o0 ∉ unwritable wc) by exact Hwt.
  all: rewrite (setFileVersion_flushed _ _ _ Hpc Hwc).
  all: simpl mTmpFilepath; unfold wc at 1; simpl files at 1.
  all: rewrite lookup_insert_eq; simpl readIniFile; simpl fst.
  all: fold (fresh_entries v).
  all: set (wd := set_files (<[tmp := Ini (fresh_entries v)]> (files wc))
                    wc).
  all: rewrite (save_clean false (with_mFileVersion v o0) wd [] wd
                  (Ini (fresh_entries v)));
         try reflexivity; try assumption;
         [| apply lookup_insert_eq ].
  all: eexists; split; [reflexivity|]; fold bk; simpl.
  all: split; [unfold same_env; simpl; auto|].
  all: rewrite !lookup_insert_eq.
  all: rewrite !(lookup_insert_ne _ bk path) by apply backupPath_neq.
  all: rewrite !(lookup_insert_ne _ tmp path) by exact Hnp.
  all: rewrite (lookup_insert_ne _ bk tmp) by congruence.
  all: rewrite lookup_insert_eq.
  all: rewrite (lookup_insert_ne _ bk path) by apply backupPath_neq.
  all: rewrite ?lookup_delete_eq; auto.
Qed.

(** C4. Round trip.  For a version [v >= 0] that fits an [int], in an
    environment where the original file, the backup and the two working
    copies (the one of the backup and the one of the original) can be
    deleted and written, where the parent directory can be made and where
    neither working copy is the original file:
    [create(path, v)] succeeds, [save(true)] on the new store succeeds,
    and opening [path] afterwards (with any [restore] and [readOnly])
    succeeds and yields a store whose cached version is [v]; so it does
    when the new store has been destroyed before [path] is opened. *)
Theorem create_save_open_roundtrip path v w restore ro :
  let bk := backupPath path in
  0 <= v <= INT_MAX ->
  getParentDir path ∉ mkpath_fails w ->
  free_path w path -> free_path w bk ->
  free_path w (shadowPath w bk) -> free_path w (shadowPath w path) ->
  shadowPath w bk ≠ path -> shadowPath w path ≠ path ->
  exists o1 w1 o2 w2 o3 w3,
    create path v w = (Ok o1, w1)
    /\ save true (o1, w1) = (Ok tt, (o2, w2))
    /\ IniFile_new path restore ro w2 = (Ok o3, w3)
    /\ mFileVersion o3 = v
    /\ exists o4 w4,
         IniFile_new path restore ro (IniFile_dtor o2 w2) = (Ok o4, w4)
         /\ mFileVersion o4 = v.
Proof.
  intros bk [Hv0 Hv1] Hmk [Hdp Hwp] [Hdb Hwb] [HdB HwB] [HdO HwO]
    HnBp HnOp.
  assert (HnBb : shadowPath w bk ≠ bk) by apply shadowPath_not_backup.
  assert (Hint : is_int v) by (unfold is_int, INT_MIN; lia).
  destruct (create_ok path v w Hv0 Hdp Hmk Hwb Hdb HnBp HwB HdB)
    as (w1 & Hcreate & (Eu & Ew & Em & Et) & Hp1 & Hb1 & Ht1).
  fold bk in Hb1, Ht1, Hcreate.
  set (o1 := mkIniFile path (shadowPath w bk) false [] v) in *.
  set (c := Ini (fresh_entries v)) in *.
  assert (Hsave : save true (o1, w1)
                  = (Ok tt, (with_mSettings [] o1,
                             set_files (<[path := c]> (files w1)) w1))).
  { apply (save_clean true o1 w1 [] w1 c); try reflexivity; simpl;
      rewrite ?Eu, ?Ew; assumption. }
  set (w2 := set_files (<[path := c]> (files w1)) w1) in *.
  assert (Hpb : path ≠ bk)
    by (intros E; symmetry in E; revert E; apply backupPath_neq).
  assert (Hbk2 : files w2 !! bk = Some c)
    by (unfold w2; simpl; rewrite lookup_insert_ne; [exact Hb1 | exact Hpb]).
  assert (Hp2 : files w2 !! path = Some c)
    by (unfold w2; simpl; apply lookup_insert_eq).
  assert (Ht2 : files w2 !! shadowPath w bk = Some c)
    by (unfold w2; simpl; rewrite lookup_insert_ne; [exact Ht1 | congruence]).
  exists o1, w1, (with_mSettings [] o1), w2.
  (* the store is still alive *)
  assert (Halive : exists o3 w3,
             IniFile_new path restore ro w2 = (Ok o3, w3)
             /\ mFileVersion o3 = v).
  { assert (Hsh : forall x, shadowPath w2 x = shadowPath w x)
      by (intros x; unfold shadowPath, w2; simpl; now rewrite Et).
    assert (Hsrc : chosen_source path restore w2
                   = if restore then bk else path).
    { unfold chosen_source. fold bk.
      assert (isExistingFile bk w2 = true) as ->
          by (apply isExistingFile_true; eauto).
      now destruct restore. }
    eexists _, _. split.
    - apply (IniFile_new_ok path restore ro w2 (fresh_entries v));
        rewrite ?Hsrc, ?Hsh; unfold w2; simpl; rewrite ?Eu, ?Ew;
        destruct restore; auto.
    - simpl. apply version_of_written. exact Hint. }
  (* the store has been destroyed: its working copy and the backup are
     gone *)
  assert (Hdead : exists o4 w4,
             IniFile_new path restore ro
               (IniFile_dtor (with_mSettings [] o1) w2) = (Ok o4, w4)
             /\ mFileVersion o4 = v).
  { unfold IniFile_dtor. cbn [mSettings with_mSettings qDeleteAll fold_left].
    simpl mTmpFilepath. simpl mIsReadOnly.
    simpl mFilepath. fold bk.
    rewrite (QFile_remove_ok (shadowPath w bk) w2)
      by (unfold w2; simpl; rewrite ?Eu; eauto).
    cbn [snd].
    set (wa := set_files (delete (shadowPath w bk) (files w2)) w2).
    rewrite (QFile_remove_ok bk wa);
      [| unfold wa; simpl; rewrite lookup_delete_ne by exact HnBb; eauto
       | unfold wa, w2; simpl; rewrite Eu; exact Hdb ].
    cbn [snd].
    set (wd := set_files (delete bk (files wa)) wa).
    assert (Hsh : forall x, shadowPath wd x = shadowPath w x)
      by (intros x; unfold shadowPath, wd, wa, w2; simpl; now rewrite Et).
    assert (Hsrc : chosen_source path restore wd = path).
    { unfold chosen_source. fold bk.
      assert (isExistingFile bk wd = false) as ->
          by (apply isExistingFile_false; unfold wd; simpl;
              apply lookup_delete_eq).
      now rewrite andb_false_r. }
    eexists _, _. split.
    - apply (IniFile_new_ok path restore ro wd (fresh_entries v));
        rewrite ?Hsrc, ?Hsh; unfold wd, wa, w2; simpl; rewrite ?Eu, ?Ew;
        auto.
      rewrite !lookup_delete_ne by congruence. apply lookup_insert_eq.
    - simpl. apply version_of_written. exact Hint. }
  destruct Halive as (o3 & w3 & Hopen & Hver).
  exists o3, w3. auto.
Qed.

End Create.

(* ===================================================================== *)
(** ** The registry stays bound to the working copy                        *)
(* ===================================================================== *)

Section Registry.

Implicit Types (o : IniFile) (w : World) (l : list (Ptr * QSettings)).

Lemma bound_to_removeOne f p l : bound_to f l -> bound_to f (removeOne p l).
Proof.
  unfold bound_to. induction l as [|[q h] l IH]; simpl; [auto|].
  intros Hb. apply Forall_cons in Hb as [Hh Hb].
  destruct (Nat.eqb p q); [exact Hb | constructor; auto].
Qed.

Lemma bound_to_update_ptr f p h' l :
  qs_fileName h' = f -> bound_to f l -> bound_to f (update_ptr p h' l).
Proof.
  unfold bound_to. intros Hf. induction l as [|[q h] l IH]; simpl; [auto|].
  intros Hb. apply Forall_cons in Hb as [Hh Hb].
  destruct (Nat.eqb p q); constructor; auto.
Qed.

Lemma lookup_ptr_bound f p l h :
  bound_to f l -> lookup_ptr p l = Some h -> qs_fileName h = f.
Proof.
  unfold bound_to. induction l as [|[q g] l IH]; simpl; [discriminate|].
  intros Hb. apply Forall_cons in Hb as [Hh Hb].
  destruct (Nat.eqb p q); [intros [= <-]; exact Hh | auto].
Qed.

(** A store that has just been opened has no handle. *)
Lemma IniFile_new_registry path restore ro w o w' :
  IniFile_new path restore ro w = (Ok o, w') ->
  mSettings o = [] /\ mFilepath o = path /\ mIsReadOnly o = ro.
Proof.
  intros Hopen.
  pose proof (IniFile_new_cases path restore ro w) as H. cbv zeta in H.
  destruct (files w !! chosen_source path restore w) as [c|].
  - destruct H as [(H & _)|[(w1 & H & _)|(_ & _ & _ & H)]];
      rewrite H in Hopen; try discriminate.
    destruct c; [|discriminate]. injection Hopen as <- _. auto.
  - rewrite H in Hopen. discriminate.
Qed.

Lemma createQSettings_registry o w r o' w' :
  registry_ok o ->
  createQSettings (o, w) = (r, (o', w')) ->
  registry_ok o' /\ mTmpFilepath o' = mTmpFilepath o /\ w' = w.
Proof.
  intros Hok. destruct (decide (parses (mTmpFilepath o) w)) as [Y|N].
  - rewrite (createQSettings_ok _ _ Y). intros [= _ <- <-].
    split; [|auto]. unfold registry_ok. simpl.
    apply bound_to_app. split; [exact Hok|]. now constructor.
  - rewrite (createQSettings_fail _ _ N). intros [= _ <- <-]. auto.
Qed.

Lemma releaseQSettings_registry p o w r o' w' :
  registry_ok o ->
  releaseQSettings p (o, w) = (r, (o', w')) ->
  r = Ok tt /\ registry_ok o' /\ mTmpFilepath o' = mTmpFilepath o.
Proof.
  intros Hok. unfold releaseQSettings. msimpl.
  destruct (lookup_ptr p (mSettings o)) as [h|] eqn:Hl; msimpl.
  - destruct (QSettings_sync h w) as [h1 w1] eqn:Hs. msimpl.
    destruct (QSettings_sync_frame _ _ _ _ Hs) as (Hn & _).
    case_decide; msimpl; intros [= <- <- <-];
      (split; [reflexivity|]); (split; [|reflexivity]);
      unfold registry_ok; simpl.
    + now apply bound_to_removeOne.
    + apply bound_to_update_ptr; [|exact Hok].
      rewrite Hn. exact (lookup_ptr_bound _ _ _ _ Hok Hl).
  - intros [= <- <- <-]. auto.
Qed.

Lemma save_registry toOriginal o w r o' w' :
  registry_ok o ->
  save toOriginal (o, w) = (r, (o', w')) ->
  registry_ok o' /\ mTmpFilepath o' = mTmpFilepath o.
Proof.
  intros Hok. unfold save, sync_registered. msimpl.
  destruct (mIsReadOnly o); msimpl; [intros [= _ <- _]; auto|].
  destruct (sync_all (mSettings o) w) as [[ok l] w0] eqn:Hs. msimpl.
  destruct (sync_all_frame _ _ _ _ _ _ Hok Hs) as (Hb & _).
  destruct ok; msimpl; [|intros [= _ <- _]; auto].
  destruct (isExistingFile _ w0); msimpl.
  - destruct (QFile_remove _ w0) as [[] wr]; msimpl;
      [|intros [= _ <- _]; auto].
    destruct (QFile_copy _ _ wr) as [[] wc]; msimpl;
      [|intros [= _ <- _]; auto].
    destruct (isExistingFile _ wc); msimpl; intros [= _ <- _]; auto.
  - destruct (QFile_copy _ _ w0) as [[] wc]; msimpl;
      [|intros [= _ <- _]; auto].
    destruct (isExistingFile _ wc); msimpl; intros [= _ <- _]; auto.
Qed.

End Registry.

(* ===================================================================== *)
(** ** The statements at concrete stores                                   *)
(* ===================================================================== *)

Section Concrete.

Import Sample.

(** Restore preference: with an original file of version 3 and a backup of
    version 4, an open that restores reads 4 and one that does not
    reads 3. *)
Example open_prefers_backup :
  exists o w', IniFile_new "/a.ini" true false with_backup = (Ok o, w')
               /\ mFileVersion o = 4.
Proof. eexists _, _. split; [vm_compute; reflexivity | reflexivity]. Qed.

Example open_ignores_backup :
  exists o w', IniFile_new "/a.ini" false false with_backup = (Ok o, w')
               /\ mFileVersion o = 3.
Proof. eexists _, _. split; [vm_compute; reflexivity | reflexivity]. Qed.

(** With an original file of version 3 and a backup of version 4, both of
    which parse: an open that restores succeeds with a working copy made
    from the backup, and an open that does not restore succeeds with one
    made from the original file. *)
Lemma open_source_selection_witness :
  (exists w',
      IniFile_new "/a.ini" true false with_backup
      = (Ok (mkIniFile "/a.ini" (shadowPath with_backup "/a.ini~") false []
               4), w')
      /\ files w' !! shadowPath with_backup "/a.ini~"
         = files with_backup !! "/a.ini~")
  /\ (exists w',
        IniFile_new "/a.ini" false false with_backup
        = (Ok (mkIniFile "/a.ini" (shadowPath with_backup "/a.ini") false []
                 3), w')
        /\ files w' !! shadowPath with_backup "/a.ini"
           = files with_backup !! "/a.ini").
Proof.
  split.
  - destruct (open_source_selection "/a.ini" true false with_backup)
      as (_ & Hok & _).
    destruct (Hok (version_entries 4)) as (w' & Hopen & Hcopy & _).
    + vm_compute. reflexivity.
    + vm_compute. discriminate.
    + apply not_elem_of_empty.
    + apply not_elem_of_empty.
    + exists w'. split; [exact Hopen|].
      etransitivity; [exact Hcopy | vm_compute; reflexivity].
  - destruct (open_source_selection "/a.ini" false false with_backup)
      as (_ & Hok & _).
    destruct (Hok (version_entries 3)) as (w' & Hopen & Hcopy & _).
    + vm_compute. reflexivity.
    + vm_compute. discriminate.
    + apply not_elem_of_empty.
    + apply not_elem_of_empty.
    + exists w'. split; [exact Hopen|].
      etransitivity; [exact Hcopy | vm_compute; reflexivity].
Defined.

(** C1, as the specification states it, fails.  With a backup on disk,
    the working copy of an open is not always the one derived from the
    original path, and an open that restores and an open that does not
    get different working copies of the same original path. *)
Lemma shadow_path_depends_on_restore :
  ~ (forall path restore ro w o w',
        IniFile_new path restore ro w = (Ok o, w') ->
        mTmpFilepath o
        = absoluteFilePath (tempPath w)
            ("EDA4U/"
             ++ Base64Url.toBase64 (Sha256.hash (toLocal8Bit path))))
  /\ ~ (forall path restore restore' ro w o w' o' w'',
          IniFile_new path restore ro w = (Ok o, w') ->
          IniFile_new path restore' ro w = (Ok o', w'') ->
          mTmpFilepath o = mTmpFilepath o').
Proof.
  destruct (IniFile_new "/a.ini" true false with_backup)
    as [r1 w1] eqn:E1.
  destruct r1 as [o1|e]; [|vm_compute in E1; discriminate].
  destruct (IniFile_new "/a.ini" false false with_backup)
    as [r2 w2] eqn:E2.
  destruct r2 as [o2|e]; [|vm_compute in E2; discriminate].
  split; intros Hspec.
  - specialize (Hspec _ _ _ _ _ _ E1).
    vm_compute in E1. injection E1 as <- _.
    vm_compute in Hspec. discriminate.
  - specialize (Hspec _ _ _ _ _ _ _ _ _ E1 E2).
    vm_compute in E1, E2. injection E1 as <- _. injection E2 as <- _.
    vm_compute in Hspec. discriminate.
Qed.

(** With the backup on disk, the restoring open works on the copy named
    after the backup. *)
Lemma shadow_path_of_source_witness :
  exists o w',
    IniFile_new "/a.ini" true false with_backup = (Ok o, w')
    /\ mTmpFilepath o = shadowPath with_backup "/a.ini~"
    /\ mTmpFilepath o
       = "/tmp/EDA4U/Gt40nAfoM-ISl7COtMU8SVb2HCBxP_Iu_2O4dbsYdnQ"%string.
Proof.
  destruct (IniFile_new "/a.ini" true false with_backup)
    as [[o|e] w'] eqn:H.
  - exists o, w'. split; [reflexivity|].
    destruct (shadow_path_of_source _ _ _ _ _ _ H) as (_ & _ & E).
    rewrite E by (vm_compute; reflexivity).
    split; [reflexivity | vm_compute; reflexivity].
  - vm_compute in H. discriminate.
Defined.

(** A handle with a write to flush, and a working copy that cannot be
    written: [save(true)] throws and the original file is as it was. *)
Lemma save_flush_failure_keeps_target_witness :
  exists e o' w',
    save true (store false [(1%nat, editing)], opened true)
    = (Throw e, (o', w'))
    /\ kind_of e = IOError
    /\ w' = snd (sync_all (mSettings (store false [(1%nat, editing)]))
                          (opened true))
    /\ files w' !! "/a.ini" = files (opened true) !! "/a.ini".
Proof.
  destruct (save_flush_failure_keeps_target
              (store false [(1%nat, editing)]) (opened true) true)
    as (e & o' & w' & Hsave & Hk & Hw & Hkeep).
  - reflexivity.
  - vm_compute. reflexivity.
  - exists e, o', w'. repeat (split; [assumption|]).
    apply Hkeep; [repeat constructor | vm_compute; discriminate].
Defined.


(** The draft and the publication of the store above, run. *)
Example draft_then_publish_run :
  exists o1 w1 o2 w2,
    save false (store false [(1%nat, editing)], opened false)
    = (Ok tt, (o1, w1))
    /\ save true (o1, w1) = (Ok tt, (o2, w2))
    /\ files w1 !! "/a.ini" = Some (Ini (version_entries 3))
    /\ files w2 !! "/a.ini"
       = Some (Ini (<["general/name" := "board"]> (version_entries 3))).
Proof.
  eexists _, _, _, _.
  split; [vm_compute; reflexivity|].
  split; [vm_compute; reflexivity|].
  split; vm_compute; reflexivity.
Qed.

(** The round trip of version 7 where there are no files yet. *)
Lemma create_save_open_roundtrip_witness :
  exists o1 w1 o2 w2 o3 w3,
    create "/p.ini" 7 no_files = (Ok o1, w1)
    /\ save true (o1, w1) = (Ok tt, (o2, w2))
    /\ IniFile_new "/p.ini" false false w2 = (Ok o3, w3)
    /\ mFileVersion o3 = 7
    /\ exists o4 w4,
         IniFile_new "/p.ini" false false (IniFile_dtor o2 w2) = (Ok o4, w4)
         /\ mFileVersion o4 = 7.
Proof.
  apply (create_save_open_roundtrip "/p.ini" 7 no_files false false).
  - unfold INT_MAX. lia.
  - apply not_elem_of_empty.
  - split; apply not_elem_of_empty.
  - split; apply not_elem_of_empty.
  - split; apply not_elem_of_empty.
  - split; apply not_elem_of_empty.
  - vm_compute. discriminate.
  - vm_compute. discriminate.
Defined.

(** A read-only store of ["/a.ini"]. *)
Lemma readonly_rejects_save_and_remove_witness :
  save true (store true [], opened false)
  = (Throw (LogicError "" CannotSaveReadOnly), (store true [], opened false))
  /\ remove (store true [], opened false)
     = (Throw (LogicError "" CannotRemoveReadOnly),
        (store true [], opened false))
  /\ kind_of (LogicError "" CannotSaveReadOnly) = ContractViolation
  /\ kind_of (LogicError "" CannotRemoveReadOnly) = ContractViolation.
Proof.
  apply (readonly_rejects_save_and_remove (store true []) (opened false) true).
  reflexivity.
Defined.

(** [remove] twice on the store of ["/a.ini"]. *)
Lemma remove_twice_witness :
  exists w',
    remove (store false [], opened false) = (Ok tt, (store false [], w'))
    /\ files w' !! "/a.ini" = None
    /\ files w' !! tmp_a = None
    /\ remove (store false [], w') = (Ok tt, (store false [], w')).
Proof.
  destruct (remove (store false [], opened false))
    as [[[]|e] [o' w']] eqn:H.
  - destruct (remove_twice (store false []) _ _ _ eq_refl H)
      as (-> & Hp & _ & Ht & Hagain).
    exists w'. split; [reflexivity|]. split; [exact Hp|].
    split; [exact Ht | exact Hagain].
  - vm_compute in H. discriminate.
Defined.

(** A file with a name and no version. *)
Lemma open_without_version_witness :
  exists o w',
    IniFile_new "/a.ini" false false without_version = (Ok o, w')
    /\ mFileVersion o = -1.
Proof.
  apply (open_without_version "/a.ini" false false without_version
           {[ "general/name" := "board" ]}).
  - vm_compute. reflexivity.
  - left. vm_compute. reflexivity.
  - vm_compute. discriminate.
  - apply not_elem_of_empty.
  - apply not_elem_of_empty.
Defined.

(** The same with a value that is not a number. *)
Example open_with_bad_version :
  exists o w',
    IniFile_new "/a.ini" true false with_bad_version = (Ok o, w')
    /\ mFileVersion o = -1.
Proof. eexists _, _. split; [vm_compute; reflexivity | reflexivity]. Qed.

(** A file the engine cannot parse: the open throws and the copy stays. *)
Lemma failed_open_leaves_shadow_witness :
  exists w',
    IniFile_new "/a.ini" false false with_garbage
    = (Throw (RuntimeError tmp_a ErrorWhileOpening), w')
    /\ files w' !! shadowPath with_garbage
                     (chosen_source "/a.ini" false with_garbage)
       = files with_garbage !! chosen_source "/a.ini" false with_garbage
    /\ files w' !! tmp_a = Some (Malformed "[[[").
Proof.
  destruct (IniFile_new "/a.ini" false false with_garbage)
    as [r w'] eqn:H.
  assert (Hr : r = Throw (RuntimeError tmp_a ErrorWhileOpening)).
  { apply (f_equal fst) in H. vm_compute in H. subst r.
    vm_compute. reflexivity. }
  subst r. exists w'. split; [reflexivity|].
  destruct (failed_open_leaves_shadow _ _ _ _ _ _ H) as (_ & _ & E).
  split; [exact E|].
  apply (f_equal snd) in H. simpl in H. subst w'. vm_compute. reflexivity.
Defined.

(** C7, as the specification states it, fails: with a working copy that cannot be
    written, the flush of the handle that carries the version fails, and
    [setFileVersion] returns normally all the same. *)
Lemma setFileVersion_hides_flush_failure :
  ~ (forall o w v,
        qs_status
          (fst (QSettings_sync
                  (QSettings_setValue file_version_key (QString_number v)
                     (QSettings_new (mTmpFilepath o) w)) w))
        ≠ NoError ->
        exists e s, setFileVersion v (o, w) = (Throw e, s)).
Proof.
  intros Hspec.
  destruct (Hspec (store false []) (opened true) 4) as (e & s & H).
  - vm_compute. discriminate.
  - vm_compute in H. discriminate.
Qed.

(** What happens there instead. *)
Example setFileVersion_retains_handle :
  exists h,
    setFileVersion 4 (store false [], opened true)
    = (Ok tt, (mkIniFile "/a.ini" tmp_a false [(1%nat, h)] 4, opened true))
    /\ qs_status h = AccessError.
Proof. eexists. split; [vm_compute; reflexivity | reflexivity]. Qed.

End Concrete.

(* ===================================================================== *)
(** ** [save]: what a failure leaves, and saving again                     *)
(* ===================================================================== *)

Section SaveOutcomes.

Implicit Types (o : IniFile) (w : World) (l : list (Ptr * QSettings)).

Lemma sync_all_ptrs l : forall w,
  map fst (snd (fst (sync_all l w))) = map fst l.
Proof.
  induction l as [|[q h] l IH]; intros w; simpl; [reflexivity|].
  destruct (QSettings_sync h w) as [h1 w1].
  case_decide; [|reflexivity].
  specialize (IH w1). destruct (sync_all l w1) as [[ok l2] w2].
  simpl in *. now rewrite IH.
Qed.

Lemma sync_all_same_env l : forall w, same_env w (snd (sync_all l w)).
Proof.
  induction l as [|[q h] l IH]; intros w; simpl; [apply same_env_refl|].
  destruct (QSettings_sync h w) as [h1 w1] eqn:Hs.
  destruct (QSettings_sync_frame _ _ _ _ Hs) as (_ & He & _).
  case_decide; [|exact He].
  specialize (IH w1). destruct (sync_all l w1) as [[ok l2] w2].
  simpl in *. eauto using same_env_trans.
Qed.

(** The object [save] leaves: the members are those of before, the
    registry is the one the flushes left (or the old one, on a read-only
    store). *)
Lemma save_object toOriginal o w :
  fst (snd (save toOriginal (o, w))) = o
  \/ fst (snd (save toOriginal (o, w)))
     = with_mSettings (snd (fst (sync_all (mSettings o) w))) o.
Proof.
  unfold save, sync_registered. msimpl.
  destruct (mIsReadOnly o); msimpl; [left; reflexivity|]. right.
  destruct (sync_all (mSettings o) w) as [[ok l] w0]. msimpl.
  destruct ok; msimpl; [|reflexivity].
  destruct (isExistingFile _ w0); msimpl.
  - destruct (QFile_remove _ w0) as [[] wr]; msimpl; [|reflexivity].
    destruct (QFile_copy _ _ wr) as [[] wc]; msimpl; [|reflexivity].
    destruct (isExistingFile _ wc); reflexivity.
  - destruct (QFile_copy _ _ w0) as [[] wc]; msimpl; [|reflexivity].
    destruct (isExistingFile _ wc); reflexivity.
Qed.

(** X1. [save] flushes the handles and releases none: whatever its
    outcome, the registry afterwards lists the same pointers in the same
    order, and the paths and the read-only flag of the store are
    unchanged. *)
Theorem save_releases_no_handle toOriginal o w :
  let o' := fst (snd (save toOriginal (o, w))) in
  map fst (mSettings o') = map fst (mSettings o)
  /\ mFilepath o' = mFilepath o
  /\ mTmpFilepath o' = mTmpFilepath o
  /\ mIsReadOnly o' = mIsReadOnly o
  /\ mFileVersion o' = mFileVersion o.
Proof.
  intros o'. subst o'.
  destruct (save_object toOriginal o w) as [-> | ->]; [auto|].
  simpl. rewrite sync_all_ptrs. auto.
Qed.

(** X2. A target that exists and cannot be deleted: after a clean flush
    [save] throws the I/O error "could not remove", and the environment is
    the one the flush left, so the target still holds what it held and no
    copy was attempted. *)
Theorem save_target_not_removable toOriginal o w l w0 :
  mIsReadOnly o = false ->
  sync_all (mSettings o) w = (true, l, w0) ->
  is_Some (files w !! targetPath toOriginal o) ->
  targetPath toOriginal o ∈ undeletable w ->
  bound_to (mTmpFilepath o) (mSettings o) ->
  mTmpFilepath o ≠ targetPath toOriginal o ->
  save toOriginal (o, w)
  = (Throw (RuntimeError (targetPath toOriginal o) CouldNotRemoveFile),
     (with_mSettings l o, w0))
  /\ files w0 !! targetPath toOriginal o
     = files w !! targetPath toOriginal o.
Proof.
  intros Hro Hs Hex Hund Hb Hne.
  destruct (sync_all_frame _ _ _ _ _ _ Hb Hs)
    as (_ & _ & (Eu & _) & Hf & _).
  assert (Ht : files w0 !! targetPath toOriginal o
               = files w !! targetPath toOriginal o)
    by (apply Hf; congruence).
  split; [|exact Ht].
  unfold save, sync_registered. msimpl. rewrite Hro. msimpl.
  fold (targetPath toOriginal o). set (t := targetPath toOriginal o) in *.
  rewrite Hs. msimpl.
  assert (isExistingFile t w0 = true) as ->
      by (apply isExistingFile_true; now rewrite Ht).
  msimpl. unfold QFile_remove.
  rewrite (bool_decide_eq_false_2 (t ∉ undeletable w0))
    by (rewrite Eu; tauto).
  rewrite andb_false_r. msimpl. reflexivity.
Qed.

(** X3. [save] is not atomic.  A target that exists, can be deleted and
    cannot be written: after a clean flush [save] deletes the target, the
    copy fails, [save] throws the I/O error "could not copy", and the
    target is gone; the temporary file still holds the data. *)
Theorem save_copy_failure_loses_target toOriginal o w l w0 c :
  mIsReadOnly o = false ->
  bound_to (mTmpFilepath o) (mSettings o) ->
  mTmpFilepath o ≠ targetPath toOriginal o ->
  sync_all (mSettings o) w = (true, l, w0) ->
  files w0 !! mTmpFilepath o = Some c ->
  is_Some (files w !! targetPath toOriginal o) ->
  targetPath toOriginal o ∉ undeletable w ->
  targetPath toOriginal o ∈ unwritable w ->
  exists w',
    save toOriginal (o, w)
    = (Throw (RuntimeError
                (mTmpFilepath o ++ ":" ++ targetPath toOriginal o)
                CouldNotCopyFile),
       (with_mSettings l o, w'))
    /\ files w' !! targetPath toOriginal o = None
    /\ files w' !! mTmpFilepath o = Some c.
Proof.
  intros Hro Hb Hne Hs Htmp Hex Hdel Hunw.
  destruct (sync_all_frame _ _ _ _ _ _ Hb Hs)
    as (_ & _ & (Eu & Ew & _) & Hf & _).
  unfold save, sync_registered. msimpl. rewrite Hro. msimpl.
  fold (targetPath toOriginal o). set (t := targetPath toOriginal o) in *.
  rewrite <- (Hf t) in Hex by congruence. rewrite <- Eu in Hdel.
  rewrite Hs. msimpl.
  assert (isExistingFile t w0 = true) as ->
      by (now apply isExistingFile_true).
  msimpl. rewrite (QFile_remove_ok _ _ Hex Hdel). msimpl.
  unfold QFile_copy. simpl files.
  rewrite lookup_delete_ne by congruence. rewrite Htmp.
  rewrite (bool_decide_eq_true_2 (t ∈ unwritable _))
    by (simpl; rewrite Ew; exact Hunw).
  rewrite orb_true_r. msimpl.
  eexists. split; [reflexivity|]. simpl.
  rewrite lookup_delete_eq, lookup_delete_ne by congruence. auto.
Qed.

(** X4. Saving again.  After a [save] that succeeded, on a store whose
    handles are bound to its temporary file and with a target that can be
    deleted and written, the same [save] succeeds again and changes
    neither the store nor any file. *)
Theorem save_again toOriginal o w o1 w1 :
  bound_to (mTmpFilepath o) (mSettings o) ->
  free_path w (targetPath toOriginal o) ->
  save toOriginal (o, w) = (Ok tt, (o1, w1)) ->
  save toOriginal (o1, w1) = (Ok tt, (o1, w1)).
Proof.
  intros Hb [Hdel Hwr] Hsave.
  destruct (save_Ok_inv _ _ _ _ _ Hsave)
    as (Hro & l & w0 & c & Hs & -> & Htmp & Hnt & ->).
  destruct (sync_all_frame _ _ _ _ _ _ Hb Hs)
    as (Hbl & Hptr & (Eu & Ew & _) & _ & _).
  destruct (sync_all_clean _ _ _ _ _ Hb Hs) as [Hrest Hparse].
  set (t := targetPath toOriginal o) in *.
  set (w1 := set_files (<[t := c]> (files w0)) w0).
  assert (Hagain : sync_all l w1 = (true, l, w1)).
  { apply (sync_all_at_rest (mTmpFilepath o)); auto.
    intros Hl. unfold parses, w1. simpl.
    rewrite lookup_insert_ne by congruence. apply Hparse.
    intros E. rewrite E in Hptr. destruct l; [congruence | discriminate]. }
  rewrite (save_clean toOriginal (with_mSettings l o) w1 l w1 c);
    try assumption.
  - f_equal. f_equal. unfold w1, set_files. simpl.
    now rewrite insert_insert_eq.
  - unfold w1. simpl. rewrite lookup_insert_ne by congruence. exact Htmp.
  - unfold w1. simpl. now rewrite Eu.
  - unfold w1. simpl. now rewrite Ew.
Qed.

End SaveOutcomes.

(* ===================================================================== *)
(** ** [remove]: every deletion is attempted                               *)
(* ===================================================================== *)

Section RemoveOutcomes.

Implicit Types (o : IniFile) (w : World) (p q : string).

Lemma only_deletes_refl w : only_deletes w w.
Proof. split; [apply same_env_refl | auto]. Qed.

Lemma only_deletes_trans w1 w2 w3 :
  only_deletes w1 w2 -> only_deletes w2 w3 -> only_deletes w1 w3.
Proof.
  intros [E1 H1] [E2 H2]. split; [eauto using same_env_trans|].
  intros q. destruct (H1 q) as [A1 U1], (H2 q) as [A2 U2].
  destruct E1 as (Eu & _). split.
  - destruct A2 as [->| ->]; auto.
  - intros Hq. rewrite U2, U1; auto. now rewrite Eu.
Qed.

Lemma only_deletes_None w w' q :
  only_deletes w w' -> files w !! q = None -> files w' !! q = None.
Proof. intros [_ H] Hq. destruct (H q) as [[A|A] _]; congruence. Qed.

(** One guarded deletion, in full. *)
Lemma remove_if_exists_step p b o w :
  exists b' w',
    remove_if_exists p b (o, w) = (Ok b', (o, w'))
    /\ only_deletes w w'
    /\ (forall q, q ≠ p -> files w' !! q = files w !! q)
    /\ (p ∉ undeletable w -> files w' !! p = None)
    /\ (b' = true <->
        b = true /\ (files w !! p = None \/ p ∉ undeletable w)).
Proof.
  unfold remove_if_exists. msimpl.
  destruct (isExistingFile p w) eqn:Hex; msimpl.
  - apply isExistingFile_true in Hex.
    destruct (decide (p ∈ undeletable w)) as [U|U].
    + unfold QFile_remove.
      rewrite (bool_decide_eq_false_2 (p ∉ undeletable w)) by tauto.
      rewrite andb_false_r. msimpl.
      eexists _, _. split; [reflexivity|].
      split; [apply only_deletes_refl|]. split; [auto|].
      split; [tauto|]. split; [discriminate|].
      intros [_ [N|N]]; [|contradiction].
      rewrite N in Hex. destruct Hex; discriminate.
    + rewrite (QFile_remove_ok _ _ Hex U). msimpl.
      eexists _, _. split; [reflexivity|]. simpl.
      split; [|split; [|split]].
      * split; [apply same_env_set_files|]. intros q. simpl.
        rewrite lookup_delete. case_decide; subst; auto.
        split; [auto | contradiction].
      * intros q Hq. now rewrite lookup_delete_ne by congruence.
      * intros _. apply lookup_delete_eq.
      * tauto.
  - apply isExistingFile_false in Hex.
    eexists _, _. split; [reflexivity|].
    split; [apply only_deletes_refl|]. split; [auto|].
    split; [auto|]. tauto.
Qed.

(** Deletions in a row: each file that can be deleted is gone, and the
    flag stays up exactly when no file of the row is left. *)
Lemma remove_each_spec o ps : forall b w,
  exists b' w',
    remove_each ps b (o, w) = (Ok b', (o, w'))
    /\ only_deletes w w'
    /\ (forall q, q ∉ ps -> files w' !! q = files w !! q)
    /\ (forall p, p ∈ ps -> p ∉ undeletable w -> files w' !! p = None)
    /\ (b' = true <->
        b = true /\ forall p, p ∈ ps -> files w' !! p = None).
Proof.
  induction ps as [|p0 ps IH]; intros b w.
  - exists b, w. split; [reflexivity|]. split; [apply only_deletes_refl|].
    split; [auto|]. split; [intros p Hp; inversion Hp|].
    split; [intros ->; split; [auto | intros p Hp; inversion Hp] | tauto].
  - simpl remove_each. unfold bind.
    destruct (remove_if_exists_step p0 b o w)
      as (b1 & w1 & E1 & D1 & F1 & G1 & B1).
    rewrite E1.
    destruct (IH b1 w1) as (b2 & w2 & E2 & D2 & F2 & G2 & B2).
    exists b2, w2. split; [exact E2|].
    pose proof (only_deletes_trans _ _ _ D1 D2) as D.
    split; [exact D|]. split; [|split].
    + intros q Hq. rewrite not_elem_of_cons in Hq. destruct Hq as [Hq0 Hq].
      rewrite F2, F1; auto.
    + intros p Hp Hd. rewrite elem_of_cons in Hp. destruct Hp as [->|Hp].
      * apply (only_deletes_None w1); auto.
      * apply G2; [exact Hp|]. destruct D1 as [(Eu & _) _]. now rewrite Eu.
    + assert (K : files w !! p0 = None \/ p0 ∉ undeletable w
                  <-> files w2 !! p0 = None).
      { split.
        - intros [N|N].
          + apply (only_deletes_None w); assumption.
          + apply (only_deletes_None w1); auto.
        - intros N. destruct (decide (p0 ∈ undeletable w)) as [U|U]; auto.
          left. destruct D as [_ UD]. now rewrite <- (proj2 (UD _) U). }
      rewrite B2, B1, K. split.
      * intros [[Hb H0] Hps]. split; [exact Hb|].
        intros p Hp. rewrite elem_of_cons in Hp.
        destruct Hp as [->|Hp]; auto.
      * intros [Hb Hall]. split; [split; [exact Hb|]|].
        -- apply Hall. left.
        -- intros p Hp. apply Hall. now right.
Qed.

(** [remove] is its row of deletions, then the test of the flag. *)
Lemma remove_as_row o w :
  mIsReadOnly o = false ->
  remove (o, w)
  = bind (remove_each (remove_targets o) true)
      (fun success =>
         if negb success
         then throw (RuntimeError (mFilepath o) CouldNotRemoveFile)
         else ret tt) (o, w).
Proof.
  intros Hro. unfold remove, remove_targets. msimpl. rewrite Hro. msimpl.
  simpl remove_each. unfold bind.
  destruct (remove_if_exists_step (mFilepath o) true o w)
    as (b1 & w1 & E1 & _). rewrite E1. msimpl.
  destruct (remove_if_exists_step (backupPath (mFilepath o)) b1 o w1)
    as (b2 & w2 & E2 & _). rewrite E2. msimpl.
  destruct (mSettings o); simpl remove_each; msimpl; [|reflexivity].
  destruct (remove_if_exists (mTmpFilepath o) b2 (o, w2)) as [[b3|e] s3];
    reflexivity.
Qed.

(** X5. [remove] goes on after a deletion that failed.  On a store that
    is not read-only, [remove] leaves the store as it is and only deletes
    files, and no other files than the original file, the backup and
    (when no handle is outstanding) the temporary file; each of these that
    can be deleted is gone afterwards, also when [remove] throws; and
    [remove] returns normally exactly when none of them is left, throwing
    the I/O error that names the original file otherwise. *)
Theorem remove_attempts_every_deletion o w :
  mIsReadOnly o = false ->
  exists r w',
    remove (o, w) = (r, (o, w'))
    /\ only_deletes w w'
    /\ (forall q, q ∉ remove_targets o -> files w' !! q = files w !! q)
    /\ (forall p, p ∈ remove_targets o -> p ∉ undeletable w ->
                  files w' !! p = None)
    /\ (r = Ok tt
        \/ r = Throw (RuntimeError (mFilepath o) CouldNotRemoveFile))
    /\ (r = Ok tt <->
        forall p, p ∈ remove_targets o -> files w' !! p = None).
Proof.
  intros Hro. rewrite (remove_as_row _ _ Hro). unfold bind.
  destruct (remove_each_spec o (remove_targets o) true w)
    as (b & w' & E & D & F & G & B).
  rewrite E.
  exists (if b then Ok tt
          else Throw (RuntimeError (mFilepath o) CouldNotRemoveFile)), w'.
  split; [destruct b; reflexivity|].
  split; [exact D|]. split; [exact F|]. split; [exact G|].
  split; [destruct b; auto|].
  split.
  - intros Hr. destruct b; [|discriminate]. now apply B.
  - intros Hall. assert (b = true) as -> by (apply B; auto). reflexivity.
Qed.

(** X6. Handles outstanding: [remove] does not touch the temporary file
    (when that is not the original file or the backup itself), whether it
    returns or throws. *)
Theorem remove_keeps_shadow_in_use o w :
  mIsReadOnly o = false ->
  mSettings o ≠ [] ->
  mTmpFilepath o ≠ mFilepath o ->
  mTmpFilepath o ≠ backupPath (mFilepath o) ->
  files (snd (snd (remove (o, w)))) !! mTmpFilepath o
  = files w !! mTmpFilepath o.
Proof.
  intros Hro Hreg Hne Hnb. rewrite (remove_as_row _ _ Hro). unfold bind.
  destruct (remove_each_spec o (remove_targets o) true w)
    as (b & w' & E & _ & F & _).
  rewrite E.
  assert (Hw : files w' !! mTmpFilepath o = files w !! mTmpFilepath o).
  { apply F. unfold remove_targets.
    destruct (mSettings o); [congruence|].
    rewrite !not_elem_of_cons. split; [exact Hne|].
    split; [exact Hnb | apply not_elem_of_nil]. }
  destruct b; exact Hw.
Qed.

End RemoveOutcomes.

(* ===================================================================== *)
(** ** Opening and closing: what is touched                                *)
(* ===================================================================== *)

Section OpenClose.

Implicit Types (o : IniFile) (w : World) (path : string).

(** X7. An open writes to its working copy only: whatever its outcome,
    every other file (the original file and the backup among them, when
    they are not the working copy) is as it was, and so is the rest of the
    environment. *)
Theorem open_touches_working_copy_only path restore ro w :
  let w' := snd (IniFile_new path restore ro w) in
  same_env w w'
  /\ forall q, q ≠ shadowPath w (chosen_source path restore w) ->
               files w' !! q = files w !! q.
Proof.
  intros w'. subst w'.
  pose proof (IniFile_new_cases path restore ro w) as H. cbv zeta in H.
  set (src := chosen_source path restore w) in *.
  set (tmp := shadowPath w src) in *.
  destruct (files w !! src) as [c|] eqn:Hsrc.
  2:{ rewrite H. split; [apply same_env_refl | auto]. }
  destruct H as [(H & _)|[(w1 & H & _)|(_ & _ & _ & H)]].
  - rewrite H. split; [apply same_env_refl | auto].
  - (* the copy failed: the stale working copy may be gone *)
    clear H. unfold IniFile_new, IniFile_ctor. msimpl.
    rewrite ctor_source_is_chosen_source. fold src.
    assert (isExistingFile src w = true) as ->
        by (apply isExistingFile_true; eauto).
    msimpl.
    change (absoluteFilePath (tempPath w) ("EDA4U/" ++ tmpFilename src))
      with tmp.
    assert (Hrest : forall w0 : World,
      same_env w w0 ->
      (forall q, q ≠ tmp -> files w0 !! q = files w !! q) ->
      let w' :=
        snd (match
          bind (io (QFile_copy src tmp)) (fun copied =>
            if negb copied
            then throw (RuntimeError (src ++ ":" ++ tmp) CouldNotCopyFile)
            else
              bind createQSettings (fun s =>
                bind (value s file_version_key) (fun v =>
                  bind (set_mFileVersion
                          (match QVariant_toInt v with
                           | Some n => n | None => -1 end))
                       (fun _ => releaseQSettings s))))
            (mkIniFile path tmp ro [] (-1), w0)
        with
        | (Ok _, (obj, w')) => (Ok obj, w')
        | (Throw e, (_, w')) => (Throw e, w')
        end) in
      same_env w w'
      /\ forall q, q ≠ tmp -> files w' !! q = files w !! q).
    { intros w0 He Hf w'.
      assert (K : w' = w0
                  \/ exists c', w' = set_files (<[tmp:=c']> (files w0)) w0).
      { subst w'. set (chain := bind createQSettings _).
        unfold bind, io, throw. mbeta.
        destruct (QFile_copy src tmp w0) as [r wc] eqn:Hc.
        destruct (QFile_copy_inv _ _ _ _ _ Hc)
          as [(-> & c' & _ & _ & ->)|[-> ->]]; mbeta.
        - subst chain. rewrite (read_version_spec _ _ c');
            [| reflexivity | simpl; apply lookup_insert_eq].
          right. exists c'. destruct c'; reflexivity.
        - left. reflexivity. }
      clearbody w'. destruct K as [->|[c' ->]]; [auto|].
      split; [eauto using same_env_trans, same_env_set_files|].
      intros q Hq. simpl. rewrite lookup_insert_ne by congruence. auto. }
    destruct (isExistingFile tmp w) eqn:Hstale; msimpl.
    + destruct (QFile_remove tmp w) as [r wr] eqn:Hrm. msimpl.
      destruct (QFile_remove_inv _ _ _ _ Hrm) as [[-> ->]|[-> ->]]; msimpl.
      * apply Hrest; [apply same_env_set_files|].
        intros q Hq. simpl. now rewrite lookup_delete_ne by congruence.
      * simpl. split; [apply same_env_refl | auto].
    + apply Hrest; [apply same_env_refl | auto].
  - rewrite H. simpl. split; [apply same_env_set_files|].
    intros q Hq. now rewrite lookup_insert_ne by congruence.
Qed.

(** Without a backup on disk, [restore] makes no difference. *)
Lemma IniFile_new_no_backup path restore ro w :
  files w !! backupPath path = None ->
  IniFile_new path restore ro w = IniFile_new path false ro w.
Proof.
  intros Hb. apply isExistingFile_false in Hb.
  unfold IniFile_new, IniFile_ctor. msimpl. rewrite Hb.
  now rewrite orb_true_r.
Qed.

(** X8. After a [remove] that returned normally, the store cannot be
    opened again: an open of its path, restoring or not, throws "not
    found" and changes nothing. *)
Theorem remove_then_open_not_found o w r' w' restore ro :
  mIsReadOnly o = false ->
  remove (o, w) = (Ok r', (o, w')) ->
  IniFile_new (mFilepath o) restore ro w'
  = (Throw (RuntimeError (mFilepath o) FileDoesNotExist), w')
  /\ kind_of (RuntimeError (mFilepath o) FileDoesNotExist) = NotFound.
Proof.
  intros Hro Hrm. split; [|reflexivity].
  rewrite (remove_as_row _ _ Hro) in Hrm. unfold bind in Hrm.
  destruct (remove_each_spec o (remove_targets o) true w)
    as (b & w1 & E & _ & _ & _ & B).
  rewrite E in Hrm. destruct b; [|discriminate].
  injection Hrm as _ <-.
  destruct (proj1 B eq_refl) as [_ Hall].
  assert (Hp : files w1 !! mFilepath o = None)
    by (apply Hall; unfold remove_targets; rewrite !elem_of_cons; auto).
  assert (Hb : files w1 !! backupPath (mFilepath o) = None)
    by (apply Hall; unfold remove_targets; rewrite !elem_of_cons; auto).
  rewrite (IniFile_new_no_backup _ _ _ _ Hb).
  pose proof (IniFile_new_cases (mFilepath o) false ro w1) as H.
  cbv zeta in H. unfold chosen_source in H. simpl in H.
  rewrite Hp in H. exact H.
Qed.

(** X9. A draft is recovered.  After a [save(false)] that succeeded, with
    the temporary file holding the entries [kv], an open that restores
    (while the store is alive, or after a crash that ran no destructor)
    reads the draft: it succeeds when its working copy can be put in
    place, with the version of [kv] cached and [kv] in its working
    copy. *)
Theorem draft_is_recovered o w o1 w1 kv ro :
  let bk := backupPath (mFilepath o) in
  save false (o, w) = (Ok tt, (o1, w1)) ->
  files w1 !! mTmpFilepath o = Some (Ini kv) ->
  shadowPath w1 bk ∉ unwritable w1 ->
  shadowPath w1 bk ∉ undeletable w1 ->
  exists w2,
    IniFile_new (mFilepath o) true ro w1
    = (Ok (mkIniFile (mFilepath o) (shadowPath w1 bk) ro []
             (version_of kv)), w2)
    /\ files w2 !! shadowPath w1 bk = Some (Ini kv).
Proof.
  intros bk Hsave Hkv Hw Hd.
  destruct (save_Ok_inv _ _ _ _ _ Hsave)
    as (_ & l & w0 & c & _ & _ & Htmp & Hnt & Ew1).
  simpl in Hnt. fold bk in Hnt, Ew1.
  assert (Hbk : files w1 !! bk = Some (Ini kv)).
  { rewrite Ew1 in Hkv |- *. simpl files in *. fold bk in Hkv |- *.
    rewrite lookup_insert_ne in Hkv by (intros E; apply Hnt; now rewrite E).
    rewrite lookup_insert_eq. congruence. }
  assert (Hsrc : chosen_source (mFilepath o) true w1 = bk).
  { unfold chosen_source. fold bk.
    assert (isExistingFile bk w1 = true) as ->
        by (apply isExistingFile_true; eauto).
    reflexivity. }
  pose proof (IniFile_new_ok (mFilepath o) true ro w1 kv) as Hopen.
  cbv zeta in Hopen. rewrite Hsrc in Hopen.
  rewrite (Hopen Hbk (shadowPath_not_backup _ _ _) Hw Hd).
  eexists. split; [reflexivity|]. simpl. apply lookup_insert_eq.
Qed.

Lemma QFile_remove_effect p w :
  let w' := snd (QFile_remove p w) in
  only_deletes w w'
  /\ (forall q, q ≠ p -> files w' !! q = files w !! q)
  /\ (p ∉ undeletable w -> files w' !! p = None).
Proof.
  unfold QFile_remove.
  destruct (isExistingFile p w) eqn:Hex; simpl.
  - destruct (decide (p ∈ undeletable w)) as [U|U].
    + rewrite (bool_decide_eq_false_2 (p ∉ undeletable w)) by tauto.
      simpl. split; [apply only_deletes_refl|]. split; [auto | tauto].
    + rewrite (bool_decide_eq_true_2 (p ∉ undeletable w)) by exact U.
      simpl. split; [|split].
      * split; [apply same_env_set_files|]. intros q. simpl.
        rewrite lookup_delete. case_decide; subst; auto.
        split; [auto | contradiction].
      * intros q Hq. now rewrite lookup_delete_ne by congruence.
      * intros _. apply lookup_delete_eq.
  - apply isExistingFile_false in Hex.
    split; [apply only_deletes_refl|]. split; auto.
Qed.

(** The destructor of a handle: the environment stays, only the file of
    the handle can change, and nothing changes without a pending write. *)
Lemma QSettings_dtor_effect h w :
  same_env w (QSettings_dtor h w)
  /\ (forall q, q ≠ qs_fileName h ->
                files (QSettings_dtor h w) !! q = files w !! q)
  /\ (qs_pending h = ∅ -> QSettings_dtor h w = w).
Proof.
  unfold QSettings_dtor.
  destruct (QSettings_sync h w) as [h' w'] eqn:Hs.
  destruct (QSettings_sync_frame _ _ _ _ Hs) as (_ & He & Hf & _).
  simpl. split; [exact He|]. split; [exact Hf|].
  intros Hp. destruct h as [f pend st]. simpl in Hp. subst pend.
  rewrite QSettings_sync_read in Hs. now injection Hs as _ <-.
Qed.

Lemma qDeleteAll_cons p h l w :
  qDeleteAll ((p, h) :: l) w = qDeleteAll l (QSettings_dtor h w).
Proof. reflexivity. Qed.

Lemma qDeleteAll_same_env l : forall w, same_env w (qDeleteAll l w).
Proof.
  induction l as [|[p h] l IH]; intros w; [apply same_env_refl|].
  rewrite qDeleteAll_cons.
  destruct (QSettings_dtor_effect h w) as (E & _).
  eauto using same_env_trans.
Qed.


(** The two removals of the destructor (lines 92-94), from the
    environment the deletion of the handles left. *)
Lemma dtor_removals o w0 :
  let w' := IniFile_dtor (with_mSettings [] o) w0 in
  let bk := backupPath (mFilepath o) in
  only_deletes w0 w'
  /\ (forall q, q ≠ mTmpFilepath o -> q ≠ bk ->
                files w' !! q = files w0 !! q)
  /\ (mTmpFilepath o ∉ undeletable w0 ->
      files w' !! mTmpFilepath o = None)
  /\ (mIsReadOnly o = false -> bk ∉ undeletable w0 ->
      files w' !! bk = None)
  /\ (mIsReadOnly o = true ->
      forall q, q ≠ mTmpFilepath o -> files w' !! q = files w0 !! q).
Proof.
  intros w' bk. subst w'. unfold IniFile_dtor.
  cbn [with_mSettings mSettings mTmpFilepath mIsReadOnly mFilepath
       qDeleteAll fold_left].
  fold bk.
  destruct (QFile_remove_effect (mTmpFilepath o) w0) as (D1 & F1 & G1).
  set (w1 := snd (QFile_remove (mTmpFilepath o) w0)) in *.
  destruct (mIsReadOnly o).
  - split; [exact D1|]. split; [auto|]. split; [exact G1|].
    split; [discriminate | auto].
  - destruct (QFile_remove_effect bk w1) as (D2 & F2 & G2).
    set (w2 := snd (QFile_remove bk w1)) in *.
    pose proof (only_deletes_trans _ _ _ D1 D2) as D.
    split; [exact D|]. split; [|split; [|split]].
    + intros q Hq Hb. now rewrite F2, F1.
    + intros U. apply (only_deletes_None w1); auto.
    + intros _ U. apply G2. destruct D1 as [(Eu & _) _]. now rewrite Eu.
    + discriminate.
Qed.

Lemma IniFile_dtor_split o w :
  IniFile_dtor o w
  = IniFile_dtor (with_mSettings [] o) (qDeleteAll (mSettings o) w).
Proof. reflexivity. Qed.


(** X11. An orderly close consumes the draft.  Once the destructor of a
    store that is not read-only has run, with a backup that can be
    deleted, an open that restores does what an open that does not restore
    does: there is no backup to restore from. *)
Theorem closed_store_has_no_draft o w ro :
  mIsReadOnly o = false ->
  backupPath (mFilepath o) ∉ undeletable w ->
  files (IniFile_dtor o w) !! backupPath (mFilepath o) = None
  /\ IniFile_new (mFilepath o) true ro (IniFile_dtor o w)
     = IniFile_new (mFilepath o) false ro (IniFile_dtor o w).
Proof.
  intros Hro Hd.
  assert (Hb : files (IniFile_dtor o w) !! backupPath (mFilepath o) = None).
  { rewrite IniFile_dtor_split.
    destruct (qDeleteAll_same_env (mSettings o) w) as (Eu & _).
    destruct (dtor_removals o (qDeleteAll (mSettings o) w))
      as (_ & _ & _ & B & _).
    apply B; [exact Hro | now rewrite Eu]. }
  split; [exact Hb | now apply IniFile_new_no_backup].
Qed.

End OpenClose.

(* ===================================================================== *)
(** ** [create]: drafts, and what a failure leaves                          *)
(* ===================================================================== *)

Section CreateOutcomes.

Implicit Types (o : IniFile) (w : World) (path : string) (v : Z).

(** [create] up to the new object: the file at [path] is removed, the
    backup is made empty and the constructor copies it. *)
Lemma create_opens_empty_backup path v w :
  let bk := backupPath path in
  let tmp := shadowPath w bk in
  path ∉ undeletable w ->
  getParentDir path ∉ mkpath_fails w ->
  bk ∉ unwritable w ->
  tmp ≠ path ->
  tmp ∉ unwritable w -> tmp ∉ undeletable w ->
  exists wc,
    create path v w
    = (if v >? -1
       then fun w =>
              match bind (setFileVersion v) (fun _ => save false)
                      (mkIniFile path tmp false [] (-1), w) with
              | (Ok _, (obj', w')) => (Ok obj', w')
              | (Throw e, (obj', w')) => (Throw e, IniFile_dtor obj' w')
              end
       else ret (mkIniFile path tmp false [] (-1))) wc
    /\ same_env w wc
    /\ files wc !! path = None
    /\ files wc !! bk = Some (Ini ∅)
    /\ files wc !! tmp = Some (Ini ∅)
    /\ (forall q, q ≠ path -> q ≠ bk -> q ≠ tmp ->
                  files wc !! q = files w !! q).
Proof.
  intros bk tmp Hdp Hmk Hwb Hnp Hwt Hdt.
  assert (Hnb : tmp ≠ bk) by apply shadowPath_not_backup.
  unfold create. msimpl.
  destruct (isExistingFile path w) eqn:Hex; msimpl;
    [ apply isExistingFile_true in Hex;
      rewrite (QFile_remove_ok _ _ Hex Hdp); msimpl
    | apply isExistingFile_false in Hex ].
  all: unfold mkPath; simpl mkpath_fails.
  all: rewrite bool_decide_eq_true_2 by exact Hmk; msimpl.
  all: unfold QFile_open_WriteOnly; fold bk; simpl unwritable.
  all: rewrite bool_decide_eq_false_2 by exact Hwb; msimpl.
  all: match goal with |- context [IniFile_new _ true false ?W] =>
         set (wb := W) end.
  all: assert (Hsrc : chosen_source path true wb = bk)
         by (unfold chosen_source; fold bk; simpl; unfold wb;
             rewrite isExistingFile_set_files_insert;
             now rewrite decide_True by reflexivity).
  all: assert (Htmp : shadowPath wb bk = tmp) by reflexivity.
  all: rewrite (IniFile_new_ok path true false wb ∅);
         rewrite ?Hsrc, ?Htmp; try assumption;
         [| apply lookup_insert_eq ].
  all: eexists; split; [reflexivity|].
  all: split; [unfold same_env; simpl; auto|].
  all: simpl.
  all: rewrite lookup_insert_eq.
  all: rewrite (lookup_insert_ne _ tmp path) by exact Hnp.
  all: rewrite (lookup_insert_ne _ tmp bk) by exact Hnb.
  all: rewrite lookup_insert_eq.
  all: rewrite (lookup_insert_ne _ bk path) by apply backupPath_neq.
  all: rewrite ?lookup_delete_eq.
  all: repeat (split; [solve [auto]|]).
  all: intros q Hq1 Hq2 Hq3.
  all: rewrite !lookup_insert_ne by congruence.
  all: rewrite ?lookup_delete_ne by congruence; reflexivity.
Qed.

(** X12. [create] with a negative version writes no version: when
    nothing is in its way it returns a store whose cached version is
    [-1], with an empty backup and an empty working copy, no original file
    and no other file changed. *)
Theorem create_without_version path v w :
  let bk := backupPath path in
  let tmp := shadowPath w bk in
  v < 0 ->
  path ∉ undeletable w ->
  getParentDir path ∉ mkpath_fails w ->
  bk ∉ unwritable w ->
  tmp ≠ path ->
  tmp ∉ unwritable w -> tmp ∉ undeletable w ->
  exists w1,
    create path v w = (Ok (mkIniFile path tmp false [] (-1)), w1)
    /\ files w1 !! path = None
    /\ files w1 !! bk = Some (Ini ∅)
    /\ files w1 !! tmp = Some (Ini ∅)
    /\ (forall q, q ≠ path -> q ≠ bk -> q ≠ tmp ->
                  files w1 !! q = files w !! q).
Proof.
  intros bk tmp Hv Hdp Hmk Hwb Hnp Hwt Hdt.
  destruct (create_opens_empty_backup path v w Hdp Hmk Hwb Hnp Hwt Hdt)
    as (wc & Hc & _ & Hrest).
  destruct (Z.gtb_spec v (-1)) as [|_]; [lia|].
  exists wc. split; [exact Hc | exact Hrest].
Qed.

(** X13. A store that is created and closed without [save(true)] leaves
    nothing: after [create] (with a version or without) and the
    destructor, there is no original file, no backup and no working copy,
    also where a file was at [path] before. *)
Theorem create_then_close_leaves_nothing path v w :
  let bk := backupPath path in
  let tmp := shadowPath w bk in
  getParentDir path ∉ mkpath_fails w ->
  free_path w path -> free_path w bk -> free_path w tmp ->
  tmp ≠ path ->
  exists o1 w1,
    create path v w = (Ok o1, w1)
    /\ files (IniFile_dtor o1 w1) !! path = None
    /\ files (IniFile_dtor o1 w1) !! bk = None
    /\ files (IniFile_dtor o1 w1) !! tmp = None.
Proof.
  intros bk tmp Hmk [Hdp Hwp] [Hdb Hwb] [Hdt Hwt] Hnp.
  assert (Hclose : forall ver w1,
            same_env w w1 -> files w1 !! path = None ->
            let o1 := mkIniFile path tmp false [] ver in
            files (IniFile_dtor o1 w1) !! path = None
            /\ files (IniFile_dtor o1 w1) !! bk = None
            /\ files (IniFile_dtor o1 w1) !! tmp = None).
  { intros ver w1 (Eu & _) Hp1 o1. unfold IniFile_dtor. simpl.
    fold bk.
    destruct (QFile_remove_effect tmp w1) as (D1 & _ & G1).
    destruct (QFile_remove_effect bk (snd (QFile_remove tmp w1)))
      as (D2 & _ & G2).
    pose proof (only_deletes_trans _ _ _ D1 D2) as D.
    split; [apply (only_deletes_None w1); assumption|].
    split.
    - apply G2. destruct D1 as [(Eu1 & _) _]. now rewrite Eu1, Eu.
    - apply (only_deletes_None (snd (QFile_remove tmp w1))); [exact D2|].
      apply G1. now rewrite Eu. }
  destruct (Z.gtb_spec v (-1)) as [Hv|Hv].
  - destruct (create_ok path v w ltac:(lia) Hdp Hmk Hwb Hdb Hnp Hwt Hdt)
      as (w1 & Hc & He & Hp1 & _).
    eexists _, w1. split; [exact Hc|]. now apply Hclose.
  - destruct (create_opens_empty_backup path v w Hdp Hmk Hwb Hnp Hwt Hdt)
      as (wc & Hc & He & Hp1 & _).
    destruct (Z.gtb_spec v (-1)) as [|_]; [lia|].
    eexists _, wc. split; [exact Hc|]. now apply Hclose.
Qed.

(** X14. A [create] that fails in its own [save] cleans up after itself,
    and has destroyed what was at [path].  With a backup path that can be
    written but not deleted, [create] with a version throws the I/O error
    "could not remove" of the backup; the destructor it runs removes the
    working copy; the backup stays behind, empty; and the file that was at
    [path] is gone. *)
Theorem create_failure_cleans_working_copy path v w :
  let bk := backupPath path in
  let tmp := shadowPath w bk in
  0 <= v ->
  path ∉ undeletable w ->
  getParentDir path ∉ mkpath_fails w ->
  bk ∉ unwritable w -> bk ∈ undeletable w ->
  tmp ≠ path ->
  tmp ∉ unwritable w -> tmp ∉ undeletable w ->
  exists w1,
    create path v w = (Throw (RuntimeError bk CouldNotRemoveFile), w1)
    /\ files w1 !! tmp = None
    /\ files w1 !! bk = Some (Ini ∅)
    /\ files w1 !! path = None.
Proof.
  intros bk tmp Hv Hdp Hmk Hwb Hub Hnp Hwt Hdt.
  assert (Hnb : tmp ≠ bk) by apply shadowPath_not_backup.
  destruct (create_opens_empty_backup path v w Hdp Hmk Hwb Hnp Hwt Hdt)
    as (wc & Hc & (Eu & Ew & _) & Hp & Hb & Ht & _).
  destruct (Z.gtb_spec v (-1)) as [_|]; [|lia].
  rewrite Hc. clear Hc.
  change (files wc !! tmp = Some (Ini ∅)) in Ht.
  change (files wc !! bk = Some (Ini ∅)) in Hb.
  set (o0 := mkIniFile path tmp false [] (-1)).
  assert (Hpc : parses (mTmpFilepath o0) wc)
    by (unfold parses, o0; cbn [mTmpFilepath]; now rewrite Ht).
  assert (Hwc : mTmpFilepath o0 ∉ unwritable wc)
    by (simpl; now rewrite Ew).
  unfold bind. rewrite (setFileVersion_flushed _ _ _ Hpc Hwc).
  subst o0. cbn [mTmpFilepath]. rewrite Ht. simpl readIniFile. cbn [fst].
  set (wd := set_files (<[tmp := _]> (files wc)) wc).
  assert (Hbd : files wd !! bk = Some (Ini ∅))
    by (unfold wd; simpl; now rewrite lookup_insert_ne by exact Hnb).
  unfold save, sync_registered. msimpl. fold bk.
  simpl sync_all. msimpl.
  assert (isExistingFile bk wd = true) as ->
      by (apply isExistingFile_true; eauto).
  msimpl. unfold QFile_remove at 1.
  rewrite (bool_decide_eq_false_2 (bk ∉ undeletable wd))
    by (unfold wd; simpl; rewrite Eu; tauto).
  rewrite andb_false_r. msimpl.
  eexists. split; [reflexivity|].
  unfold IniFile_dtor. cbn [mSettings with_mSettings qDeleteAll fold_left].
  simpl mTmpFilepath. simpl mIsReadOnly.
  simpl mFilepath. fold bk.
  destruct (QFile_remove_effect tmp wd) as (D1 & F1 & G1).
  destruct (QFile_remove_effect bk (snd (QFile_remove tmp wd)))
    as (D2 & F2 & G2).
  pose proof (only_deletes_trans _ _ _ D1 D2) as [_ UD].
  split; [|split].
  - apply (only_deletes_None (snd (QFile_remove tmp wd))); [exact D2|].
    apply G1. unfold wd. simpl. now rewrite Eu.
  - rewrite (proj2 (UD bk)); [exact Hbd|].
    unfold wd. simpl. now rewrite Eu.
  - apply (only_deletes_None wd);
      [exact (only_deletes_trans _ _ _ D1 D2)|].
    unfold wd. simpl. now rewrite lookup_insert_ne by exact Hnp.
Qed.

End CreateOutcomes.

(* ===================================================================== *)
(** ** The shape of the name of a working copy                             *)
(* ===================================================================== *)

Section NameShape.

Lemma round_length st kw : length (Sha256.round st kw) = length st.
Proof.
  unfold Sha256.round.
  destruct st as [|a [|b [|c [|d [|e [|f [|g [|h [|i st]]]]]]]]];
    reflexivity.
Qed.

Lemma fold_round_length kws : forall st,
  length (fold_left Sha256.round kws st) = length st.
Proof.
  induction kws as [|kw kws IH]; intros st; simpl; [reflexivity|].
  now rewrite IH, round_length.
Qed.

Lemma compress_length h block :
  length (Sha256.compress h block) = length h.
Proof.
  unfold Sha256.compress.
  rewrite length_map, length_combine, fold_round_length. lia.
Qed.

Lemma blocks_length fuel : forall h bs,
  length (Sha256.blocks fuel h bs) = length h.
Proof.
  induction fuel as [|fuel IH]; intros h bs; simpl; [reflexivity|].
  destruct bs; [reflexivity|]. now rewrite IH, compress_length.
Qed.

Lemma flat_map_be_bytes_length (l : list Z) :
  length (flat_map (Sha256.be_bytes 4) l) = (4 * length l)%nat.
Proof.
  induction l as [|x l IH]; [reflexivity|].
  cbn [flat_map]. rewrite length_app, IH.
  cbn [Sha256.be_bytes length]. lia.
Qed.

(** A digest has 32 bytes. *)
Lemma hash_length msg : length (Sha256.hash msg) = 32%nat.
Proof.
  unfold Sha256.hash. rewrite flat_map_be_bytes_length, blocks_length.
  reflexivity.
Qed.

Lemma digit_in_alphabet i :
  In (Base64Url.digit i) (list_ascii_of_string Base64Url.alphabet).
Proof.
  unfold Base64Url.digit. generalize (Z.to_nat i). intros n.
  do 64 (destruct n as [|n]; [simpl; tauto|]).
  simpl. tauto.
Qed.

Lemma encode_in_alphabet fuel : forall bs,
  Forall (fun c => In c (list_ascii_of_string Base64Url.alphabet))
         (list_ascii_of_string (Base64Url.encode fuel bs)).
Proof.
  induction fuel as [|fuel IH]; intros bs; simpl; [constructor|].
  destruct bs as [|b0 [|b1 [|b2 rest]]]; cbn [Base64Url.encode
    list_ascii_of_string];
    repeat (constructor; [apply digit_in_alphabet|]); auto.
Qed.

Lemma encode_32_length (bs : list Z) :
  length bs = 32%nat ->
  String.length (Base64Url.toBase64 bs) = 43%nat.
Proof.
  intros H. unfold Base64Url.toBase64. rewrite H.
  do 32 (destruct bs as [|? bs]; [discriminate|]).
  destruct bs; [reflexivity | discriminate].
Qed.

(** X15. The file name of a working copy has the same shape for every
    path, the empty one and those of any length included: 43 characters,
    each a letter, a digit, [-] or [_].  In particular it holds no path
    separator. *)
Theorem tmpFilename_shape (iniFilepath : string) :
  String.length (tmpFilename iniFilepath) = 43%nat
  /\ Forall (fun c => In c (list_ascii_of_string Base64Url.alphabet))
            (list_ascii_of_string (tmpFilename iniFilepath))
  /\ ~ In "/"%char (list_ascii_of_string (tmpFilename iniFilepath)).
Proof.
  unfold tmpFilename.
  assert (Hall := encode_in_alphabet
                    (S (length (Sha256.hash (toLocal8Bit iniFilepath))))
                    (Sha256.hash (toLocal8Bit iniFilepath))).
  fold (Base64Url.toBase64 (Sha256.hash (toLocal8Bit iniFilepath))) in Hall.
  split; [apply encode_32_length, hash_length|].
  split; [exact Hall|].
  intros Hin.
  pose proof (proj1 (List.Forall_forall _ _) Hall _ Hin) as K.
  revert K. clear. vm_compute. intuition discriminate.
Qed.

End NameShape.

(* ===================================================================== *)
(** ** Handles: acquiring, writing, releasing                              *)
(* ===================================================================== *)

Section HandleOutcomes.

Implicit Types (o : IniFile) (w : World) (l : list (Ptr * QSettings))
  (p q : Ptr).

Lemma lookup_ptr_None p l : lookup_ptr p l = None <-> p ∉ map fst l.
Proof.
  induction l as [|[r h] l IH]; simpl.
  - split; [intros _; apply not_elem_of_nil | reflexivity].
  - rewrite not_elem_of_cons. destruct (Nat.eqb_spec p r).
    + split; [discriminate | tauto].
    + rewrite IH. tauto.
Qed.

Lemma lookup_ptr_removeOne_same p l :
  NoDup (map fst l) -> lookup_ptr p (removeOne p l) = None.
Proof.
  induction l as [|[r h] l IH]; simpl; [reflexivity|].
  intros Hnd. apply NoDup_cons in Hnd as [Hr Hnd].
  destruct (Nat.eqb_spec p r) as [->|Hne].
  - now apply lookup_ptr_None.
  - simpl. destruct (Nat.eqb_spec p r); [contradiction | auto].
Qed.

Lemma lookup_ptr_removeOne_other p q l :
  q ≠ p -> lookup_ptr q (removeOne p l) = lookup_ptr q l.
Proof.
  intros Hne. induction l as [|[r h] l IH]; simpl; [reflexivity|].
  destruct (Nat.eqb_spec p r) as [->|Hpr]; simpl.
  - destruct (Nat.eqb_spec q r); [contradiction | reflexivity].
  - now rewrite IH.
Qed.

Lemma lookup_ptr_update_same p h h' l :
  lookup_ptr p l = Some h -> lookup_ptr p (update_ptr p h' l) = Some h'.
Proof.
  induction l as [|[r g] l IH]; simpl; [discriminate|].
  destruct (Nat.eqb_spec p r) as [->|Hpr]; simpl.
  - now rewrite Nat.eqb_refl.
  - destruct (Nat.eqb_spec p r); [contradiction | exact IH].
Qed.

Lemma lookup_ptr_update_other p q h' l :
  q ≠ p -> lookup_ptr q (update_ptr p h' l) = lookup_ptr q l.
Proof.
  intros Hne. induction l as [|[r g] l IH]; simpl; [reflexivity|].
  destruct (Nat.eqb_spec p r) as [->|Hpr]; simpl.
  - destruct (Nat.eqb_spec q r); [contradiction | reflexivity].
  - now rewrite IH.
Qed.

Lemma map_fst_update_ptr p h' l : map fst (update_ptr p h' l) = map fst l.
Proof.
  induction l as [|[r g] l IH]; simpl; [reflexivity|].
  destruct (Nat.eqb p r); simpl; [reflexivity | now rewrite IH].
Qed.

Lemma length_removeOne p h l :
  lookup_ptr p l = Some h -> S (length (removeOne p l)) = length l.
Proof.
  induction l as [|[r g] l IH]; simpl; [discriminate|].
  destruct (Nat.eqb p r); simpl; [reflexivity|].
  intros H. now rewrite IH.
Qed.

Lemma NoDup_removeOne p l :
  NoDup (map fst l) -> NoDup (map fst (removeOne p l)).
Proof.
  induction l as [|[r g] l IH]; simpl; [auto|].
  intros Hnd. apply NoDup_cons in Hnd as [Hr Hnd].
  destruct (Nat.eqb p r); simpl; [exact Hnd|].
  apply NoDup_cons. split; [|auto].
  rewrite <- lookup_ptr_None in Hr |- *.
  destruct (Nat.eq_dec r p) as [->|Hne].
  - now apply lookup_ptr_removeOne_same.
  - now rewrite lookup_ptr_removeOne_other.
Qed.

(** X16. Acquiring a handle and releasing it without a write changes
    nothing, on a store whose registered handles are at rest: whether the
    handle could be opened or not, the store (its registry included) and
    the environment are afterwards what they were.  (The handles on one
    file share the writes that are not flushed yet, so the flush of the
    release step could carry the write of another handle; the statement is
    for the stores where there is none.) *)
Theorem acquire_release_changes_nothing o w :
  registry_at_rest o ->
  snd (bind createQSettings releaseQSettings (o, w)) = (o, w).
Proof.
  intros _. unfold bind at 1.
  destruct (decide (parses (mTmpFilepath o) w)) as [Y|N].
  - rewrite (createQSettings_ok _ _ Y).
    unfold releaseQSettings. msimpl.
    rewrite (lookup_ptr_app_fresh _ _ _ (fresh_ptr_not_registered _)).
    msimpl. rewrite QSettings_sync_read.
    unfold parses in Y. rewrite Y. simpl. msimpl.
    rewrite (removeOne_app_fresh _ _ _ (fresh_ptr_not_registered _)).
    now destruct o.
  - now rewrite (createQSettings_fail _ _ N).
Qed.

(** X17. [releaseQSettings] retires a handle only when its flush
    succeeded, and never throws.  For a registered handle of a registry
    without duplicate addresses: the file is flushed; with a clean status
    afterwards the handle is no longer registered and the registry is one
    shorter; otherwise the handle stays registered with its error and the
    registry keeps its length.  The other handles stay as they are. *)
Theorem release_retires_only_flushed_handles p h o w :
  NoDup (map fst (mSettings o)) ->
  lookup_ptr p (mSettings o) = Some h ->
  let h' := fst (QSettings_sync h w) in
  exists o',
    releaseQSettings p (o, w) = (Ok tt, (o', snd (QSettings_sync h w)))
    /\ (forall q, q ≠ p ->
                  lookup_ptr q (mSettings o') = lookup_ptr q (mSettings o))
    /\ (qs_status h' = NoError ->
        lookup_ptr p (mSettings o') = None
        /\ S (length (mSettings o')) = length (mSettings o))
    /\ (qs_status h' ≠ NoError ->
        lookup_ptr p (mSettings o') = Some h'
        /\ length (mSettings o') = length (mSettings o)).
Proof.
  intros Hnd Hl h'. subst h'. unfold releaseQSettings. msimpl.
  rewrite Hl. msimpl.
  destruct (QSettings_sync h w) as [h1 w1]. msimpl.
  case_decide as Hst; msimpl; eexists; (split; [reflexivity|]); simpl.
  - split; [intros q Hq; now apply lookup_ptr_removeOne_other|].
    split; [|contradiction].
    intros _. split; [now apply lookup_ptr_removeOne_same|].
    now apply (length_removeOne p h).
  - split; [intros q Hq; now apply lookup_ptr_update_other|].
    split; [contradiction|].
    intros _. split; [now apply (lookup_ptr_update_same p h)|].
    rewrite <- !(length_map fst). now rewrite map_fst_update_ptr.
Qed.

(** X18. [setFileVersion] writes through to the temporary file at once,
    and nothing else: on a store (read-only or not) whose registered
    handles are at rest (none holds a write the flush could carry) and
    whose temporary file
    parses and can be written, it returns normally, only the cached version
    of the store changes, the temporary file then holds the old entries
    with the version key set to the decimal text of the version, every
    other key and every other file is as it was, and the version read
    back from these entries is the one set (for a version that fits an
    [int]). *)
Theorem setFileVersion_writes_version_only o w v :
  registry_at_rest o ->
  parses (mTmpFilepath o) w ->
  mTmpFilepath o ∉ unwritable w ->
  exists w' kv',
    setFileVersion v (o, w) = (Ok tt, (with_mFileVersion v o, w'))
    /\ files w' !! mTmpFilepath o = Some (Ini kv')
    /\ kv' !! file_version_key = Some (QString_number v)
    /\ (forall k, k ≠ file_version_key ->
          kv' !! k = fst (readIniFile (files w !! mTmpFilepath o)) !! k)
    /\ (forall f : string,
          f ≠ mTmpFilepath o -> files w' !! f = files w !! f)
    /\ (is_int v -> version_of kv' = v).
Proof.
  intros _ Hp Hw. eexists _, _.
  split; [apply (setFileVersion_flushed _ _ _ Hp Hw)|]. simpl.
  split; [apply lookup_insert_eq|].
  split; [apply lookup_insert_eq|].
  split; [intros k Hk; now rewrite lookup_insert_ne by congruence|].
  split; [intros f Hf; now rewrite lookup_insert_ne by congruence|].
  apply version_of_written.
Qed.

(** X19. The invariant of the registry.  A store that has just been
    opened has an empty registry, and [createQSettings],
    [releaseQSettings], [setFileVersion] and [save] keep, whatever their
    outcome, every registered handle bound to the temporary file of the
    store, the addresses of the handles distinct, and the path of the
    temporary file fixed. *)
Theorem registry_invariant :
  (forall path restore ro w o w',
      IniFile_new path restore ro w = (Ok o, w') ->
      mSettings o = [] /\ registry_inv o)
  /\ (forall o w r o' w',
        registry_inv o -> createQSettings (o, w) = (r, (o', w')) ->
        registry_inv o' /\ mTmpFilepath o' = mTmpFilepath o)
  /\ (forall p o w r o' w',
        registry_inv o -> releaseQSettings p (o, w) = (r, (o', w')) ->
        registry_inv o' /\ mTmpFilepath o' = mTmpFilepath o)
  /\ (forall v o w r o' w',
        registry_inv o -> setFileVersion v (o, w) = (r, (o', w')) ->
        registry_inv o' /\ mTmpFilepath o' = mTmpFilepath o)
  /\ (forall toOriginal o w r o' w',
        registry_inv o -> save toOriginal (o, w) = (r, (o', w')) ->
        registry_inv o' /\ mTmpFilepath o' = mTmpFilepath o).
Proof.
  assert (Hcreate : forall o w r o' w',
    registry_inv o -> createQSettings (o, w) = (r, (o', w')) ->
    registry_inv o' /\ mTmpFilepath o' = mTmpFilepath o).
  { intros o w r o' w' [Hok Hnd] Hc.
    destruct (createQSettings_registry _ _ _ _ _ Hok Hc) as (Hok' & Ht & _).
    split; [split; [exact Hok'|] | exact Ht].
    destruct (decide (parses (mTmpFilepath o) w)) as [Y|N].
    - rewrite (createQSettings_ok _ _ Y) in Hc. injection Hc as _ <- _.
      simpl. rewrite map_app. simpl. apply NoDup_app.
      split; [exact Hnd|]. split; [|apply NoDup_singleton].
      intros x Hx Hx'. apply list_elem_of_singleton in Hx'. subst x.
      revert Hx. apply lookup_ptr_None, fresh_ptr_not_registered.
    - rewrite (createQSettings_fail _ _ N) in Hc. now injection Hc as _ <- _. }
  assert (Hrelease : forall p o w r o' w',
    registry_inv o -> releaseQSettings p (o, w) = (r, (o', w')) ->
    registry_inv o' /\ mTmpFilepath o' = mTmpFilepath o).
  { intros p o w r o' w' [Hok Hnd] Hr.
    destruct (releaseQSettings_registry _ _ _ _ _ _ Hok Hr)
      as (_ & Hok' & Ht).
    split; [split; [exact Hok'|] | exact Ht].
    revert Hr. unfold releaseQSettings. msimpl.
    destruct (lookup_ptr p (mSettings o)) as [h|]; msimpl.
    - destruct (QSettings_sync h w) as [h1 w1]. msimpl.
      case_decide; msimpl; intros [= _ <- _]; simpl.
      + now apply NoDup_removeOne.
      + now rewrite map_fst_update_ptr.
    - now intros [= _ <- _]. }
  split; [|split; [exact Hcreate | split; [exact Hrelease | split]]].
  - intros path restore ro w o w' Hopen.
    destruct (IniFile_new_registry _ _ _ _ _ _ Hopen) as (Hreg & _).
    split; [exact Hreg|]. unfold registry_inv, registry_ok.
    rewrite Hreg. split; constructor.
  - intros v o w r o' w' Hinv.
    destruct (decide (parses (mTmpFilepath o) w)) as [Y|N].
    + rewrite (setFileVersion_unfold _ _ _ Y). intros Hr.
      apply Hrelease in Hr; [exact Hr|].
      destruct Hinv as [Hok Hnd]. unfold registry_inv, registry_ok.
      simpl. split.
      * apply bound_to_app. split; [exact Hok | now constructor].
      * rewrite map_app. simpl. apply NoDup_app.
        split; [exact Hnd|]. split; [|apply NoDup_singleton].
        intros x Hx Hx'. apply list_elem_of_singleton in Hx'. subst x.
        revert Hx. apply lookup_ptr_None, fresh_ptr_not_registered.
    + unfold setFileVersion, bind at 1.
      rewrite (createQSettings_fail _ _ N). now intros [= _ <- _].
  - intros toOriginal o w r o' w' [Hok Hnd] Hs.
    destruct (save_registry _ _ _ _ _ _ Hok Hs) as (Hok' & Ht).
    split; [split; [exact Hok'|] | exact Ht].
    assert (E : o' = fst (snd (save toOriginal (o, w))))
      by now rewrite Hs.
    destruct (save_object toOriginal o w) as [K|K]; rewrite K in E;
      subst o'; [exact Hnd|].
    simpl. now rewrite sync_all_ptrs.
Qed.

End HandleOutcomes.

(* ===================================================================== *)
(** ** When an open succeeds, and saving what was removed                  *)
(* ===================================================================== *)

Section Outcomes.

Implicit Types (o : IniFile) (w : World) (path : string).

(** X20. An open succeeds exactly when the chosen source exists and
    parses, the working copy is not the source itself, the working copy
    can be written and a stale working copy, if there is one, can be
    deleted.  An open that fails throws "not found" when the source does
    not exist and an I/O error in every other case. *)
Theorem open_succeeds_iff path restore ro w :
  let src := chosen_source path restore w in
  let tmp := shadowPath w src in
  ((exists o w', IniFile_new path restore ro w = (Ok o, w'))
   <-> (exists kv, files w !! src = Some (Ini kv))
       /\ tmp ≠ src /\ (tmp ∉ unwritable w)
       /\ (is_Some (files w !! tmp) -> tmp ∉ undeletable w))
  /\ (forall e w', IniFile_new path restore ro w = (Throw e, w') ->
        kind_of e = (if isExistingFile src w then IOError else NotFound)).
Proof.
  intros src tmp.
  pose proof (IniFile_new_cases path restore ro w) as H.
  cbv zeta in H. fold src tmp in H.
  destruct (files w !! src) as [c|] eqn:Hsrc.
  - assert (isExistingFile src w = true) as ->
        by (apply isExistingFile_true; eauto).
    destruct H as [(H & S & U)|[(w1 & H & _ & B)|(Hne & Hw & Hd & H)]];
      rewrite H.
    + split; [|intros e w' [= <- _]; reflexivity].
      split; [intros (o & w' & [=]) | intros (_ & _ & _ & D); tauto].
    + split; [|intros e w' [= <- _]; reflexivity].
      split; [intros (o & w' & [=]) | intros (_ & N & W & _); tauto].
    + destruct c as [kv|raw].
      * split; [|intros e w' [=]].
        split; [intros _; eauto 6 | intros _; eauto].
      * split; [|intros e w' [= <- _]; reflexivity].
        split; [intros (o & w' & [=]) | intros ((kv & [=]) & _)].
  - assert (isExistingFile src w = false) as ->
        by (now apply isExistingFile_false).
    rewrite H. split; [|intros e w' [= <- _]; reflexivity].
    split; [intros (o & w' & [=]) | intros ((kv & [=]) & _)].
Qed.

(** X21. What [remove] has removed cannot be saved back.  After a
    [remove] that returned normally on a store without outstanding
    handles, [save] to either target throws the I/O error "could not
    copy" (the temporary file is gone), and creates no file. *)
Theorem save_after_remove o w r' w' toOriginal :
  mIsReadOnly o = false ->
  mSettings o = [] ->
  remove (o, w) = (Ok r', (o, w')) ->
  save toOriginal (o, w')
  = (Throw (RuntimeError
              (mTmpFilepath o ++ ":" ++ targetPath toOriginal o)
              CouldNotCopyFile), (o, w'))
  /\ files w' !! targetPath toOriginal o = None.
Proof.
  intros Hro Hreg Hrm.
  rewrite (remove_as_row _ _ Hro) in Hrm. unfold bind in Hrm.
  destruct (remove_each_spec o (remove_targets o) true w)
    as (b & w1 & E & _ & _ & _ & B).
  rewrite E in Hrm. destruct b; [|discriminate].
  injection Hrm as _ <-.
  destruct (proj1 B eq_refl) as [_ Hall].
  unfold remove_targets in Hall. rewrite Hreg in Hall.
  assert (Hp : files w1 !! mFilepath o = None)
    by (apply Hall; rewrite !elem_of_cons; auto).
  assert (Hb : files w1 !! backupPath (mFilepath o) = None)
    by (apply Hall; rewrite !elem_of_cons; auto).
  assert (Ht : files w1 !! mTmpFilepath o = None)
    by (apply Hall; rewrite !elem_of_cons; auto).
  assert (Htarget : files w1 !! targetPath toOriginal o = None)
    by (destruct toOriginal; assumption).
  split; [|exact Htarget].
  unfold save, sync_registered. msimpl. rewrite Hro. msimpl.
  fold (targetPath toOriginal o). rewrite Hreg. simpl sync_all. msimpl.
  apply isExistingFile_false in Htarget. rewrite Htarget. msimpl.
  unfold QFile_copy. rewrite Ht. msimpl.
  rewrite <- Hreg. now rewrite with_mSettings_same.
Qed.

End Outcomes.

(* ===================================================================== *)
(** ** More statements at concrete stores                                  *)
(* ===================================================================== *)

Section MoreConcrete.

Import Sample.

(** An original file that cannot be deleted: [save(true)] throws and the
    file is as it was. *)
Lemma save_target_not_removable_witness :
  exists l w0,
    save true (store false [(1%nat, editing)], opened_env {[ "/a.ini" ]} ∅)
    = (Throw (RuntimeError "/a.ini" CouldNotRemoveFile),
       (with_mSettings l (store false [(1%nat, editing)]), w0))
    /\ files w0 !! "/a.ini" = Some (Ini (version_entries 3)).
Proof.
  destruct (sync_all (mSettings (store false [(1%nat, editing)]))
              (opened_env {[ "/a.ini" ]} ∅)) as [[ok l] w0] eqn:Hs.
  assert (ok = true) as ->
      by (apply (f_equal (fun x => fst (fst x))) in Hs;
          vm_compute in Hs; congruence).
  exists l, w0.
  destruct (save_target_not_removable true
              (store false [(1%nat, editing)])
              (opened_env {[ "/a.ini" ]} ∅) l w0) as [Hsave Hkeep].
  - reflexivity.
  - exact Hs.
  - eexists. vm_compute. reflexivity.
  - vm_compute. reflexivity.
  - repeat constructor.
  - vm_compute. discriminate.
  - split; [exact Hsave|].
    etransitivity; [exact Hkeep | vm_compute; reflexivity].
Defined.

(** An original file that can be deleted and not written: [save(true)]
    throws and the file is gone. *)
Lemma save_copy_failure_loses_target_witness :
  exists e o' w',
    save true (store false [(1%nat, editing)], opened_env ∅ {[ "/a.ini" ]})
    = (Throw e, (o', w'))
    /\ files w' !! "/a.ini" = None
    /\ is_Some (files w' !! tmp_a).
Proof.
  destruct (sync_all (mSettings (store false [(1%nat, editing)]))
              (opened_env ∅ {[ "/a.ini" ]})) as [[ok l] w0] eqn:Hs.
  assert (ok = true) as ->
      by (apply (f_equal (fun x => fst (fst x))) in Hs;
          vm_compute in Hs; congruence).
  destruct (files w0 !! tmp_a) as [c|] eqn:Hc;
    [| apply (f_equal snd) in Hs; simpl in Hs; subst w0;
       vm_compute in Hc; discriminate ].
  destruct (save_copy_failure_loses_target true
              (store false [(1%nat, editing)])
              (opened_env ∅ {[ "/a.ini" ]}) l w0 c)
    as (w' & Hsave & Hgone & Htmp).
  - reflexivity.
  - repeat constructor.
  - vm_compute. discriminate.
  - exact Hs.
  - exact Hc.
  - eexists. vm_compute. reflexivity.
  - apply not_elem_of_empty.
  - vm_compute. reflexivity.
  - eexists _, _, w'. split; [exact Hsave|]. split; [exact Hgone|].
    exists c. exact Htmp.
Defined.

(** [save(false)] twice on the store with a write to flush. *)
Lemma save_again_witness :
  exists o1 w1,
    save false (store false [(1%nat, editing)], opened false)
    = (Ok tt, (o1, w1))
    /\ save false (o1, w1) = (Ok tt, (o1, w1)).
Proof.
  destruct (save false (store false [(1%nat, editing)], opened false))
    as [[[]|e] [o1 w1]] eqn:H.
  - exists o1, w1. split; [reflexivity|].
    apply (save_again false (store false [(1%nat, editing)])
             (opened false) o1 w1).
    + repeat constructor.
    + split; apply not_elem_of_empty.
    + exact H.
  - vm_compute in H. discriminate.
Defined.

(** An original file that cannot be deleted: [remove] throws, and has
    deleted the working copy all the same. *)
Lemma remove_attempts_every_deletion_witness :
  exists w',
    remove (store false [], opened_env {[ "/a.ini" ]} ∅)
    = (Throw (RuntimeError "/a.ini" CouldNotRemoveFile),
       (store false [], w'))
    /\ files w' !! tmp_a = None
    /\ is_Some (files w' !! "/a.ini").
Proof.
  destruct (remove_attempts_every_deletion (store false [])
              (opened_env {[ "/a.ini" ]} ∅) eq_refl)
    as (r & w' & Hrm & [_ Hkeep] & _ & Hgone & Hr & Hiff).
  assert (Htmp : files w' !! tmp_a = None).
  { apply Hgone.
    - unfold remove_targets. simpl. rewrite !elem_of_cons. auto.
    - intros H. vm_compute in H. discriminate. }
  assert (Hini : files w' !! "/a.ini"
                 = files (opened_env {[ "/a.ini" ]} ∅) !! "/a.ini").
  { apply Hkeep. vm_compute. reflexivity. }
  exists w'. split; [|split; [exact Htmp|]].
  - destruct Hr as [-> | ->]; [|exact Hrm].
    exfalso. assert (N : files w' !! "/a.ini" = None).
    { apply Hiff; [reflexivity|].
      unfold remove_targets. simpl. rewrite !elem_of_cons. auto. }
    rewrite Hini in N. vm_compute in N. discriminate.
  - rewrite Hini. eexists. vm_compute. reflexivity.
Defined.

(** With a handle outstanding, [remove] leaves the working copy. *)
Lemma remove_keeps_shadow_in_use_witness :
  files (snd (snd (remove (store false [(1%nat, editing)], opened false))))
    !! tmp_a
  = files (opened false) !! tmp_a.
Proof.
  apply (remove_keeps_shadow_in_use (store false [(1%nat, editing)])
           (opened false)).
  - reflexivity.
  - discriminate.
  - vm_compute. discriminate.
  - vm_compute. discriminate.
Defined.

(** The store of ["/a.ini"] removed, then opened. *)
Lemma remove_then_open_not_found_witness :
  exists w',
    remove (store false [], opened false) = (Ok tt, (store false [], w'))
    /\ IniFile_new "/a.ini" true false w'
       = (Throw (RuntimeError "/a.ini" FileDoesNotExist), w').
Proof.
  destruct (remove (store false [], opened false))
    as [[[]|e] [o' w']] eqn:H.
  - assert (o' = store false []) as ->
        by (transitivity (fst (snd (remove (store false [],
                                            opened false))));
            [rewrite H; reflexivity | vm_compute; reflexivity]).
    exists w'. split; [reflexivity|].
    apply (proj1 (remove_then_open_not_found (store false [])
                    (opened false) tt w' true false eq_refl H)).
  - vm_compute in H. discriminate.
Defined.

(** The draft of the store with a write to flush, recovered. *)
Lemma draft_is_recovered_witness :
  exists o1 w1 w2,
    save false (store false [(1%nat, editing)], opened false)
    = (Ok tt, (o1, w1))
    /\ IniFile_new "/a.ini" true false w1
       = (Ok (mkIniFile "/a.ini" (shadowPath w1 "/a.ini~") false [] 3), w2)
    /\ files w2 !! shadowPath w1 "/a.ini~"
       = Some (Ini (<["general/name" := "board"]> (version_entries 3))).
Proof.
  destruct (save false (store false [(1%nat, editing)], opened false))
    as [[[]|e] [o1 w1]] eqn:H; [|vm_compute in H; discriminate].
  assert (Hw1 : w1 = snd (snd (save false (store false [(1%nat, editing)],
                                           opened false))))
    by now rewrite H.
  destruct (draft_is_recovered (store false [(1%nat, editing)])
              (opened false) o1 w1
              (<["general/name" := "board"]> (version_entries 3)) false)
    as (w2 & Hopen & Hfile).
  - exact H.
  - rewrite Hw1. vm_compute. reflexivity.
  - rewrite Hw1. vm_compute. discriminate.
  - rewrite Hw1. vm_compute. discriminate.
  - exists o1, w1, w2. split; [reflexivity|].
    split; [exact Hopen | exact Hfile].
Defined.


(** The same store with a working copy that cannot be deleted: the write
    the handle held is in the working copy the destructor leaves. *)
Example destructor_flushes_pending :
  files (IniFile_dtor (store false [(1%nat, editing)])
           (opened_env {[ tmp_a ]} ∅)) !! tmp_a
  = Some (Ini (<["general/name" := "board"]> (version_entries 3))).
Proof. vm_compute. reflexivity. Qed.

(** A handle acquired and released on a store with a handle at rest. *)
Lemma acquire_release_changes_nothing_witness :
  snd (bind createQSettings releaseQSettings
         (store false [(1%nat, idle)], opened false))
  = (store false [(1%nat, idle)], opened false).
Proof.
  apply (acquire_release_changes_nothing (store false [(1%nat, idle)])
           (opened false)).
  repeat constructor.
Defined.

(** The store of ["/a.ini"], with a backup on disk, closed. *)
Lemma closed_store_has_no_draft_witness :
  files (IniFile_dtor (store false []) with_backup) !! "/a.ini~" = None
  /\ IniFile_new "/a.ini" true false (IniFile_dtor (store false [])
                                       with_backup)
     = IniFile_new "/a.ini" false false (IniFile_dtor (store false [])
                                          with_backup).
Proof.
  apply (closed_store_has_no_draft (store false []) with_backup false).
  - reflexivity.
  - apply not_elem_of_empty.
Defined.

(** [create] with a negative version, nothing on disk. *)
Lemma create_without_version_witness :
  exists w1,
    create "/p.ini" (-1) no_files
    = (Ok (mkIniFile "/p.ini" (shadowPath no_files "/p.ini~") false []
             (-1)), w1)
    /\ files w1 !! "/p.ini" = None
    /\ files w1 !! "/p.ini~" = Some (Ini ∅).
Proof.
  destruct (create_without_version "/p.ini" (-1) no_files)
    as (w1 & Hc & Hp & Hb & _).
  - lia.
  - apply not_elem_of_empty.
  - apply not_elem_of_empty.
  - apply not_elem_of_empty.
  - vm_compute. discriminate.
  - apply not_elem_of_empty.
  - apply not_elem_of_empty.
  - exists w1. split; [exact Hc|]. split; [exact Hp | exact Hb].
Defined.

(** [create] with version 3, nothing on disk; then the destructor. *)
Lemma create_then_close_leaves_nothing_witness :
  exists o1 w1,
    create "/p.ini" 3 no_files = (Ok o1, w1)
    /\ files (IniFile_dtor o1 w1) !! "/p.ini" = None
    /\ files (IniFile_dtor o1 w1) !! "/p.ini~" = None.
Proof.
  destruct (create_then_close_leaves_nothing "/p.ini" 3 no_files)
    as (o1 & w1 & Hc & Hp & Hb & _).
  - apply not_elem_of_empty.
  - split; apply not_elem_of_empty.
  - split; apply not_elem_of_empty.
  - split; apply not_elem_of_empty.
  - vm_compute. discriminate.
  - exists o1, w1. split; [exact Hc|]. split; [exact Hp | exact Hb].
Defined.

(** [create] with version 3 where the backup cannot be deleted. *)
Lemma create_failure_cleans_working_copy_witness :
  exists w1,
    create "/p.ini" 3 sticky_backup
    = (Throw (RuntimeError "/p.ini~" CouldNotRemoveFile), w1)
    /\ files w1 !! shadowPath sticky_backup "/p.ini~" = None
    /\ files w1 !! "/p.ini~" = Some (Ini ∅).
Proof.
  destruct (create_failure_cleans_working_copy "/p.ini" 3 sticky_backup)
    as (w1 & Hc & Ht & Hb & _).
  - lia.
  - intros X. vm_compute in X. discriminate.
  - apply not_elem_of_empty.
  - apply not_elem_of_empty.
  - vm_compute. reflexivity.
  - vm_compute. discriminate.
  - apply not_elem_of_empty.
  - intros X. vm_compute in X. discriminate.
  - exists w1. split; [exact Hc|]. split; [exact Ht | exact Hb].
Defined.

(** Releasing the one handle of the store, its flush being clean. *)
Lemma release_retires_only_flushed_handles_witness :
  exists o',
    releaseQSettings 1%nat (store false [(1%nat, editing)], opened false)
    = (Ok tt, (o', snd (QSettings_sync editing (opened false))))
    /\ lookup_ptr 1%nat (mSettings o') = None.
Proof.
  destruct (release_retires_only_flushed_handles 1%nat editing
              (store false [(1%nat, editing)]) (opened false))
    as (o' & Hr & _ & Hclean & _).
  - apply NoDup_singleton.
  - vm_compute. reflexivity.
  - exists o'. split; [exact Hr|].
    apply Hclean. vm_compute. reflexivity.
Defined.

(** Version 7 written to the store of ["/a.ini"], another handle being
    registered and at rest. *)
Lemma setFileVersion_writes_version_only_witness :
  exists w' kv',
    setFileVersion 7 (store false [(1%nat, idle)], opened false)
    = (Ok tt, (with_mFileVersion 7 (store false [(1%nat, idle)]), w'))
    /\ files w' !! tmp_a = Some (Ini kv')
    /\ version_of kv' = 7.
Proof.
  destruct (setFileVersion_writes_version_only
              (store false [(1%nat, idle)]) (opened false) 7)
    as (w' & kv' & Hs & Hf & _ & _ & _ & Hv).
  - repeat constructor.
  - vm_compute. reflexivity.
  - apply not_elem_of_empty.
  - exists w', kv'. split; [exact Hs|]. split; [exact Hf|].
    apply Hv. vm_compute. split; discriminate.
Defined.

(** The store of ["/a.ini"] removed, then saved. *)
Lemma save_after_remove_witness :
  exists w',
    remove (store false [], opened false) = (Ok tt, (store false [], w'))
    /\ save true (store false [], w')
       = (Throw (RuntimeError (tmp_a ++ ":/a.ini") CouldNotCopyFile),
          (store false [], w')).
Proof.
  destruct (remove (store false [], opened false))
    as [[[]|e] [o' w']] eqn:H.
  - assert (o' = store false []) as ->
        by (transitivity (fst (snd (remove (store false [],
                                            opened false))));
            [rewrite H; reflexivity | vm_compute; reflexivity]).
    exists w'. split; [reflexivity|].
    apply (proj1 (save_after_remove (store false []) (opened false)
                    tt w' true eq_refl eq_refl H)).
  - vm_compute in H. discriminate.
Defined.

End MoreConcrete.
